(** * ts-multi-map: MultiValueMap and MultiKeyMap

    A shallow embedding of [MultiValueMap] (one key, an array of values) and
    [MultiKeyMap] (an array of key parts, one value) and the properties the
    specification states about them.

    Modelling choices, fixed once for the whole file.
    - An ECMAScript [Map] is an insertion-ordered association list without
      repeated keys ([JsMap]).  [Map.prototype.set] on a key that is present
      replaces the value in place, on a new key it appends; [delete] removes
      the entry and tells whether there was one.  Where a callback changes
      the map while [Map.prototype.forEach] walks it, the list keeps the
      emptied records of the deleted entries ([MapData]).
    - Arrays are lists.  [Array.prototype.includes] and the key comparison of
      [Map] are SameValueZero; it is the decidable equality of the element
      type.  [===] differs from SameValueZero (on NaN), so where the source
      writes [===] the model takes the comparison as a parameter [strictEq].
      Where the identity of an array matters ([push] appends to the stored
      array where it is), arrays are references into a heap
      ([MultiValueMapRefs]).
    - A method that mutates [this] takes the state and returns the new state,
      next to the value the method returns.
    - [objectHash] of the [object-hash] package is a parameter of the
      multi-key map. *)

From Stdlib Require Import String List Permutation Lia.
From stdpp Require Import prelude strings.

(** [result = result || f()]: JavaScript evaluates [f()], and with it the side
    effect of [f], only when [result] is false. *)
Definition lazy_or {St : Type} (result : bool) (f : St → bool * St) (st : St)
  : bool * St :=
  if result then (true, st) else f st.

(** [array.includes(x)] *)
Definition includes `{EqDecision A} (x : A) (array : list A) : bool :=
  bool_decide (x ∈ array).

(** ** The built-in Map *)
Module JsMap.
Section JsMap.
Context {K V : Type} `{EqDecision K}.

Definition empty : list (K * V) := [].

Fixpoint get (key : K) (m : list (K * V)) : option V :=
  match m with
  | [] => None
  | (k, v) :: rest => if decide (key = k) then Some v else get key rest
  end.

Definition has (key : K) (m : list (K * V)) : bool :=
  bool_decide (key ∈ m.*1).

Fixpoint set (key : K) (value : V) (m : list (K * V)) : list (K * V) :=
  match m with
  | [] => [(key, value)]
  | (k, v) :: rest =>
      if decide (key = k) then (k, value) :: rest
      else (k, v) :: set key value rest
  end.

Fixpoint remove (key : K) (m : list (K * V)) : list (K * V) :=
  match m with
  | [] => []
  | (k, v) :: rest =>
      if decide (key = k) then rest else (k, v) :: remove key rest
  end.

(** What [remove] does to the list of keys. *)
Fixpoint remove_first (key : K) (l : list K) : list K :=
  match l with
  | [] => []
  | k :: rest => if decide (key = k) then rest else k :: remove_first key rest
  end.

(** [map.delete(key)]: the boolean result and the map afterwards. *)
Definition delete (key : K) (m : list (K * V)) : bool * list (K * V) :=
  (has key m, remove key m).

Definition clear (m : list (K * V)) : list (K * V) := [].

Definition size (m : list (K * V)) : nat := length m.

Definition keys (m : list (K * V)) : list K := m.*1.
Definition values (m : list (K * V)) : list V := m.*2.
Definition entries (m : list (K * V)) : list (K * V) := m.

(** [map.forEach((value, key) => body)] for a body that does not change
    the map: the body is run on every entry, in insertion order, and
    threads a state of its own. *)
Definition forEach {St : Type} (body : V → K → St → St)
    (m : list (K * V)) (st : St) : St :=
  fold_left (λ st e, body e.2 e.1 st) m st.
End JsMap.
End JsMap.

(** ** The built-in Map while it is iterated

    ECMAScript keeps the entries of a Map in the list [[[MapData]]]:
    [delete] and [clear] empty the record of an entry and leave the record
    in the list, [set] on a new key appends a record, [set] on a key that is
    present writes the value into its record.  [Map.prototype.forEach] walks
    the list by position, skips the emptied records and stops when it is past
    the end of the list as it is by then: it does not meet an entry that was
    deleted before its turn, and it does meet the entries added meanwhile. *)
Module MapData.
Section MapData.
Context {K V : Type} `{EqDecision K}.

(** A record, [None] once it is emptied. *)
#[local] Abbreviation t := (list (option (K * V))).

(** The records of a map that holds the entries [m]. *)
Definition of_entries (m : list (K * V)) : t := Some <$> m.

(** The entries a reader of the map sees. *)
Definition entries (d : t) : list (K * V) := omap id d.

Fixpoint set (key : K) (value : V) (d : t) : t :=
  match d with
  | [] => [Some (key, value)]
  | Some (k, v) :: rest =>
      if decide (key = k) then Some (k, value) :: rest
      else Some (k, v) :: set key value rest
  | None :: rest => None :: set key value rest
  end.

Fixpoint delete (key : K) (d : t) : t :=
  match d with
  | [] => []
  | Some (k, v) :: rest =>
      if decide (key = k) then None :: rest else Some (k, v) :: delete key rest
  | None :: rest => None :: delete key rest
  end.

Definition clear (d : t) : t := (λ _, None) <$> d.

(** A call that changes the map. *)
Inductive mutation :=
  | MSet (key : K) (value : V)
  | MDelete (key : K)
  | MClear.

Definition apply (d : t) (mu : mutation) : t :=
  match mu with
  | MSet key value => set key value d
  | MDelete key => delete key d
  | MClear => clear d
  end.

(** [map.forEach((value, key) => body)] from the record at [index] on; the
    body may change the map.  Every record looked at costs one unit of
    [fuel]; [None] says the fuel did not last, as happens for any amount of
    it when the body adds a key on every call. *)
Fixpoint forEach {St : Type} (fuel : nat) (body : V → K → t → St → t * St)
    (index : nat) (d : t) (st : St) : option (t * St) :=
  match fuel with
  | 0 => None
  | S fuel' =>
      match d !! index with
      | None => Some (d, st)
      | Some None => forEach fuel' body (S index) d st
      | Some (Some (key, value)) =>
          let '(d', st') := body value key d st in
          forEach fuel' body (S index) d' st'
      end
  end.
End MapData.
End MapData.

(** [array.forEach(body)] *)
Definition array_forEach {A St : Type} (body : A → St → St)
    (array : list A) (st : St) : St :=
  fold_left (λ st x, body x st) array st.

(** ** MultiValueMap *)
Module MultiValueMap.
Section MultiValueMap.
Context {K V : Type} `{EqDecision K} `{EqDecision V}.

(** [private readonly map = new Map<K, V[]>()] *)
#[local] Abbreviation t := (list (K * list V)).

Definition empty : t := JsMap.empty.

Definition get (key : K) (m : t) : option (list V) := JsMap.get key m.

Definition set (key : K) (values : list V) (m : t) : t :=
  JsMap.set key values m.

(** [constructor(entries)], also [MultiValueMap.of(entries)] ([of] is reserved) *)
Definition of_entries (entries : list (K * list V)) : t :=
  array_forEach (λ entry m, let '(key, values) := entry in set key values m)
    entries empty.

(** [push] with the arrays as values: under the key, its array with [values]
    appended.  [MultiValueMapRefs.push] below has the array objects, the
    append in place and the RangeError of the spread. *)
Definition push (key : K) (values : list V) (m : t) : t :=
  let array := default [] (get key m) in
  JsMap.set key (array ++ values) m.

Definition clear (m : t) : t := JsMap.clear m.

Definition keys (m : t) : list K := JsMap.keys m.
Definition values (m : t) : list (list V) := JsMap.values m.
Definition entries (m : t) : list (K * list V) := JsMap.entries m.
Definition size (m : t) : nat := JsMap.size m.

Definition deleteByKey (key : K) (m : t) : bool * t := JsMap.delete key m.

Definition deleteByKeys (keys : list K) (m : t) : bool * t :=
  if (length keys =? 0) || (size m =? 0) then (false, m)
  else
    fold_left (λ '(result, m) key, lazy_or result (JsMap.delete key) m)
      keys (false, m).

Definition deleteByValue (value : V) (m : t) : bool * t :=
  if size m =? 0 then (false, m)
  else
    fold_left
      (λ '(result, m) '(key, values),
         if includes value values
         then lazy_or result (JsMap.delete key) m
         else (result, m))
      (entries m) (false, m).

Definition deleteByValues (values : list V) (m : t) : bool * t :=
  if (length values =? 0) || (size m =? 0) then (false, m)
  else
    fold_left (λ '(result, m) value, lazy_or result (deleteByValue value) m)
      values (false, m).

(** [array.filter(v => v !== value)], with [strictEq] for [===] *)
Definition deleteValueOfKey (strictEq : V → V → bool)
    (key : K) (value : V) (m : t) : bool * t :=
  let array := default [] (get key m) in
  if negb (includes value array) then (false, m)
  else
    (true, JsMap.set key (List.filter (λ v, negb (strictEq v value)) array) m).

Definition hasKey (key : K) (m : t) : bool := JsMap.has key m.

Definition hasKeyValue (key : K) (value : V) (m : t) : bool :=
  if size m =? 0 then false
  else includes value (default [] (get key m)).

(** [for (const key of keys) { if (this.hasKey(key)) return true; } return false;] *)
Fixpoint hasAnyKeys_loop (keys : list K) (m : t) : bool :=
  match keys with
  | [] => false
  | key :: rest => if hasKey key m then true else hasAnyKeys_loop rest m
  end.

Definition hasAnyKeys (keys : list K) (m : t) : bool :=
  if (length keys =? 0) || (size m =? 0) then false
  else hasAnyKeys_loop keys m.

Fixpoint hasAllKeys_loop (keys : list K) (m : t) : bool :=
  match keys with
  | [] => true
  | key :: rest => if negb (hasKey key m) then false else hasAllKeys_loop rest m
  end.

Definition hasAllKeys (keys : list K) (m : t) : bool :=
  if (length keys =? 0) || (size m =? 0) then false
  else hasAllKeys_loop keys m.

(** The inner loop of [hasValue] over the candidate [values], for one stored
    [array]; [rest] is what is left of [values], [result] the flag.
    The loop leaves at the first element that makes the flag false. *)
Fixpoint hasValue_inner (array values : list V) (exact : bool)
    (rest : list V) (result : bool) : bool :=
  match rest with
  | [] => result
  | v :: rest' =>
      let result' :=
        result && includes v array
        && (if exact then length array =? length values else true) in
      if negb result' then result'
      else hasValue_inner array values exact rest' result'
  end.

(** The outer loop of [hasValue] over [this.map.values()]. *)
Fixpoint hasValue_outer (arrays : list (list V)) (values : list V)
    (exact : bool) : bool :=
  match arrays with
  | [] => false
  | array :: arrays' =>
      if hasValue_inner array values exact values true then true
      else hasValue_outer arrays' values exact
  end.

Definition hasValue (values : list V) (exact : bool) (m : t) : bool :=
  if (length values =? 0) || (size m =? 0) then false
  else hasValue_outer (JsMap.values m) values exact.

(** Modelled from the spec: [hasAnyValues] of MultiValueMap, which the
    read-only facade and the tests call and the class as given here does not
    define.  Section 4.1: "apply hasValue(..., exact=true) across multiple
    candidate sequences, short-circuiting on first true".  Section 4.2 says
    of the any/all predicates of MultiKeyMap that they follow the "same
    any/all short-circuit discipline as §4.1"; those, like [hasAnyKeys] and
    [hasAllKeys] above, begin with the guard on the number of arguments and
    on the size, and the model begins with it too. *)
Fixpoint hasAnyValues_loop (sequences : list (list V)) (m : t) : bool :=
  match sequences with
  | [] => false
  | values :: rest =>
      if hasValue values true m then true else hasAnyValues_loop rest m
  end.

Definition hasAnyValues (sequences : list (list V)) (m : t) : bool :=
  if (length sequences =? 0) || (size m =? 0) then false
  else hasAnyValues_loop sequences m.

(** Modelled from the spec: [hasAllValues] of MultiValueMap, missing like
    [hasAnyValues].  Section 4.1: "apply hasValue(..., exact=true) across
    multiple candidate sequences, short-circuiting on [...] first false",
    with the guard of the any/all predicates as for [hasAnyValues]. *)
Fixpoint hasAllValues_loop (sequences : list (list V)) (m : t) : bool :=
  match sequences with
  | [] => true
  | values :: rest =>
      if negb (hasValue values true m) then false
      else hasAllValues_loop rest m
  end.

Definition hasAllValues (sequences : list (list V)) (m : t) : bool :=
  if (length sequences =? 0) || (size m =? 0) then false
  else hasAllValues_loop sequences m.

Definition isEmpty (m : t) : bool := size m =? 0.

(** The callbacks of [forEach] and [forEachIndexing] read the entry and the
    map and thread a state [St] of their own (what the callback closes
    over).  The iteration is the live [Map.prototype.forEach]; these two
    definitions are for callbacks that leave the map as it is. *)
Definition forEach {St : Type} (callback : list V → K → t → St → St)
    (m : t) (st : St) : St :=
  JsMap.forEach (λ values key st, callback values key m st) m st.

(** [this.map.forEach((values, key) =>
    { if (!callback(values, key, this)) return; })].
    The callback is handed the map and may change it.  Whatever it calls on
    the map ([set], [push], [deleteByKey], [clear], ...) reaches [this.map]
    as calls of [Map.set], [Map.delete] and [Map.clear], and pushing onto or
    emptying a stored array shows as new values under the keys that hold it:
    the callback returns these [MapData.mutation]s, in the order it makes
    them, next to its boolean and its own state.  [fuel] bounds the number
    of records the loop looks at, [None] says it did not last. *)
Definition forEachBreakable {St : Type} (fuel : nat)
    (callback : list V → K → t → St
                → bool * (list (MapData.mutation (K:=K) (V:=list V)) * St))
    (m : t) (st : St) : option (t * St) :=
  '(d, st') ←
    MapData.forEach fuel
      (λ values key d st,
         let '(continue, (mutations, st')) :=
           callback values key (MapData.entries d) st in
         let after := (fold_left MapData.apply mutations d, st') in
         if negb continue then after (* return; *) else after)
      0 (MapData.of_entries m) st;
  Some (MapData.entries d, st').

(** A callback that, besides what [callback] does, notes down the entry it
    was called on. *)
Definition traced {St : Type}
    (callback : list V → K → t → St
                → bool * (list (MapData.mutation (K:=K) (V:=list V)) * St))
  : list V → K → t → list (K * list V) * St
    → bool * (list (MapData.mutation (K:=K) (V:=list V))
              * (list (K * list V) * St)) :=
  λ values key m '(log, st),
    let '(continue, (mutations, st')) := callback values key m st in
    (continue, (mutations, (log ++ [(key, values)], st'))).

(** A callback that changes nothing in the map. *)
Definition quiet {St : Type} (callback : list V → K → t → St → bool * St)
  : list V → K → t → St
    → bool * (list (MapData.mutation (K:=K) (V:=list V)) * St) :=
  λ values key m st,
    let '(continue, st') := callback values key m st in
    (continue, ([], st')).

Definition isNotEmpty (m : t) : bool := 0 <? size m.

(** [let index = 0; this.map.forEach((values, key) =>
    callback(values, key, index++, this))] *)
Definition forEachIndexing {St : Type}
    (callback : list V → K → nat → t → St → St) (m : t) (st : St) : St :=
  (JsMap.forEach
     (λ values key '(index, st), (index + 1, callback values key index m st))
     m (0, st)).2.

(** [[Symbol.iterator]()] is the iterator of the inner map. *)
Definition iterator (m : t) : list (K * list V) := JsMap.entries m.

(** The mutators of the public interface, and the state after a sequence of
    calls; [strictEq] is the [===] of [deleteValueOfKey]. *)
Inductive op :=
  | OpSet (key : K) (values : list V)
  | OpPush (key : K) (values : list V)
  | OpDeleteByKey (key : K)
  | OpDeleteByKeys (keys : list K)
  | OpDeleteByValue (value : V)
  | OpDeleteByValues (values : list V)
  | OpDeleteValueOfKey (key : K) (value : V)
  | OpClear.

Definition step (strictEq : V → V → bool) (m : t) (o : op) : t :=
  match o with
  | OpSet key values => set key values m
  | OpPush key values => push key values m
  | OpDeleteByKey key => (deleteByKey key m).2
  | OpDeleteByKeys keys => (deleteByKeys keys m).2
  | OpDeleteByValue value => (deleteByValue value m).2
  | OpDeleteByValues values => (deleteByValues values m).2
  | OpDeleteValueOfKey key value => (deleteValueOfKey strictEq key value m).2
  | OpClear => clear m
  end.

Definition run (strictEq : V → V → bool) (ops : list op) (m : t) : t :=
  fold_left (step strictEq) ops m.
End MultiValueMap.
End MultiValueMap.

(** ** MultiValueMap and the arrays it shares with its caller

    [set] stores the array it is given, not a copy, and [push] appends to the
    stored array where it is.  Here an array is an object with an identity:
    the map holds references, and a heap tells what each array holds.
    [MultiValueMap] above, whose arrays are values, describes the map as
    long as no array is stored under two keys or changed behind the map's
    back. *)
Module MultiValueMapRefs.
Section MultiValueMapRefs.
Context {K V : Type} `{EqDecision K}.

(** The most arguments a call can take.  [array.push(...values)] spreads
    [values] into the arguments of the call, and the engine raises a
    RangeError when there are more than it can take. *)
Variable argumentLimit : nat.

(** The identity of an array object. *)
Definition ref : Type := nat.

(** What every array holds, and the reference the next new array gets. *)
Record heap := mkHeap {
  elements : ref → list V;
  next : ref
}.

(** An assignment to the elements of [array]. *)
Definition write (array : ref) (new : list V) (h : heap) : heap :=
  mkHeap (λ r, if decide (r = array) then new else elements h r) (next h).

(** The array literal [[]]: a new, empty array. *)
Definition new_array (h : heap) : ref * heap :=
  (next h,
   mkHeap (λ r, if decide (r = next h) then [] else elements h r)
     (S (next h))).

(** [private readonly map = new Map<K, V[]>()] *)
#[local] Abbreviation t := (list (K * ref)).

Definition get (key : K) (m : t) : option ref := JsMap.get key m.

Definition set (key : K) (values : ref) (m : t) : t := JsMap.set key values m.

(** [array.push(...values)]; [None] is the RangeError, raised before
    anything is appended. *)
Definition array_push (array values : ref) (h : heap) : option heap :=
  if argumentLimit <? length (elements h values) then None
  else Some (write array (elements h array ++ elements h values) h).

(** [const array = this.get(key) || []; array.push(...values);
    this.map.set(key, array);]: an array is truthy, so [[]] is taken only
    for a key that is not there.  [None]: the call ended with the
    RangeError, the map as it was. *)
Definition push (key : K) (values : ref) (m : t) (h : heap)
  : option (t * heap) :=
  let '(array, h1) :=
    match get key m with
    | Some array => (array, h)
    | None => new_array h
    end in
  h2 ← array_push array values h1;
  Some (set key array m, h2).

(** What a reader finds under [key]: the elements of the array stored
    there. *)
Definition read (key : K) (m : t) (h : heap) : option (list V) :=
  elements h <$> get key m.

(** The map with the arrays as values, as [MultiValueMap] has it. *)
Definition contents (m : t) (h : heap) : list (K * list V) :=
  (λ '(key, array), (key, elements h array)) <$> m.

(** Every array of the map was made before now. *)
Definition allocated (m : t) (h : heap) : Prop :=
  ∀ key array, get key m = Some array → array < next h.

(** No array is stored under [key] and under another key as well. *)
Definition unshared (key : K) (m : t) : Prop :=
  ∀ key' array, get key m = Some array → get key' m = Some array → key' = key.
End MultiValueMapRefs.
End MultiValueMapRefs.

(** ** Conversion to strings *)

(** [toStr x] is ToString(x), what a template literal prints; [joinStr x] is
    what [Array.prototype.join] prints for the element [x]: the empty string
    for [undefined] and [null], ToString(x) otherwise. *)
Class JsToString (A : Type) := {
  toStr : A → string;
  joinStr : A → string
}.

(** [array.join()], the separator defaulting to a comma *)
Definition array_join `{JsToString A} (array : list A) : string :=
  String.concat "," (map joinStr array).

#[global] Instance string_JsToString : JsToString string :=
  {| toStr s := s; joinStr s := s |}.

(** ToString of an array is its [join()]. *)
#[global] Instance array_JsToString `{JsToString A} : JsToString (list A) :=
  {| toStr := array_join; joinStr := array_join |}.

(** [A | undefined], with [None] for [undefined] *)
#[global] Instance undefined_JsToString `{JsToString A} : JsToString (option A) :=
  {| toStr := from_option toStr "undefined"; joinStr := from_option joinStr "" |}.

(** ** MultiValueMap.toString *)
Module MultiValueMapText.
Section MultiValueMapText.
Context {K V : Type}.

(** What [Array.prototype.join] prints for a key and for a value: the empty
    string for [undefined] and [null], ToString of it otherwise.  ToString
    raises a TypeError for a Symbol and for an object that has no conversion
    to a primitive; [None] is that TypeError. *)
Variable keyJoinStr : K → option string.
Variable valueJoinStr : V → option string.

(** [key.join()] for a key that stands where an array is expected: the joined
    text when the key is an array, [None] for the TypeError when it has no
    such method. *)
Variable keyJoin : K → option string.

(** [array.join()], the separator defaulting to a comma, with the conversion
    [text] of the elements; the first element that cannot be converted ends
    it with the TypeError. *)
Definition join {A : Type} (text : A → option string) (array : list A)
  : option string :=
  texts ← mapM text array;
  Some (String.concat "," texts).

(** An element of the tuple [[K, V[]]] that the iterator yields. *)
Inductive cell :=
  | CKey (key : K)
  | CValues (values : list V).

(** What [join] prints for an element of the tuple; ToString of an array is
    its [join()]. *)
Definition cell_joinStr (c : cell) : option string :=
  match c with
  | CKey key => keyJoinStr key
  | CValues values => join valueJoinStr values
  end.

(** [values.join()], [values] being an element of the tuple or [undefined]:
    [None] is the TypeError. *)
Definition join_method (values : option cell) : option string :=
  match values with
  | Some (CValues values) => join valueJoinStr values
  | Some (CKey key) => keyJoin key
  | None => None
  end.

(** The arrow function of [toString] on one element [entry] of [[...this]];
    [key] is the array [entry.slice(0, -1)], which the template literal
    prints as its [join()]. *)
Definition toString_entry (entry : list cell) : option string :=
  let '(key, values) :=
    if length entry <=? 1 then ([], head entry)
    else (removelast entry, last entry) in
  keyText ← join cell_joinStr key;
  joined ← join_method values;
  Some (keyText +:+ ":[" +:+ joined +:+ "]").

Definition toString (m : list (K * list V)) : option string :=
  rendered ← mapM (λ '(key, values), toString_entry [CKey key; CValues values])
                  (MultiValueMap.iterator m);
  Some (String.concat ";" rendered).
End MultiValueMapText.
End MultiValueMapText.

(** ** MultiKeyMap *)
Module MultiKeyMap.
Section MultiKeyMap.
Context {K V : Type} `{EqDecision K} `{EqDecision V}.

(** [objectHash(keys)] of the object-hash package *)
Variable objectHash : list K → string.

(** [v === value] *)
Variable strictEq : V → V → bool.

(** [keysMap = new MultiValueMap<string, K>()], [valueMap = new Map<string, V>()] *)
Record t := mk {
  keysMap : list (string * list K);
  valueMap : list (string * V)
}.

Definition empty : t := mk MultiValueMap.empty JsMap.empty.

Definition get (keys : list K) (m : t) : option V :=
  if length keys =? 0 then None
  else
    let hash := objectHash keys in
    JsMap.get hash (valueMap m).

Definition set (keys : list K) (value : V) (m : t) : t :=
  if length keys =? 0 then m
  else
    let hash := objectHash keys in
    mk (MultiValueMap.set hash keys (keysMap m))
       (JsMap.set hash value (valueMap m)).

(** [constructor(entries)], also [MultiKeyMap.of(entries)] ([of] is reserved) *)
Definition of_entries (entries : list (list K * V)) : t :=
  array_forEach (λ entry m, let '(keys, value) := entry in set keys value m)
    entries empty.

Definition clear (m : t) : t :=
  mk (MultiValueMap.clear (keysMap m)) (JsMap.clear (valueMap m)).

Definition keys (m : t) : list (list K) := MultiValueMap.values (keysMap m).

Definition values (m : t) : list V := JsMap.values (valueMap m).

(** [this.keysMap.get(k) || []]: an array is truthy, so only [undefined]
    is replaced. *)
Definition entries (m : t) : list (list K * V) :=
  if JsMap.size (valueMap m) =? 0 then []
  else
    map (λ '(k, value), (default [] (MultiValueMap.get k (keysMap m)), value))
      (valueMap m).

Definition size (m : t) : nat := JsMap.size (valueMap m).

Definition deleteByKey (keys : list K) (m : t) : bool * t :=
  if length keys =? 0 then (false, m)
  else
    let hash := objectHash keys in
    if negb (JsMap.has hash (valueMap m)) then (false, m)
    else
      (true, mk (MultiValueMap.deleteByKey hash (keysMap m)).2
                (JsMap.delete hash (valueMap m)).2).

(** The loop runs on the iterator of [this.valueMap] and deletes nothing but
    the entry it stands on, so it meets the entries the map had when the loop
    began, each with the value it had then. *)
Definition deleteByValue (value : V) (m : t) : bool * t :=
  if JsMap.size (valueMap m) =? 0 then (false, m)
  else
    fold_left
      (λ '(result, m) '(k, v),
         if strictEq v value
         then (true, mk (MultiValueMap.deleteByKey k (keysMap m)).2
                        (JsMap.delete k (valueMap m)).2)
         else (result, m))
      (JsMap.entries (valueMap m)) (false, m).

Definition deleteByValues (values : list V) (m : t) : bool * t :=
  if (length values =? 0) || (JsMap.size (valueMap m) =? 0) then (false, m)
  else
    fold_left (λ '(result, m) value, lazy_or result (deleteByValue value) m)
      values (false, m).

Definition hasKey (keys : list K) (m : t) : bool :=
  (0 <? length keys) && MultiValueMap.hasValue keys true (keysMap m).

Definition hasValue (value : V) (m : t) : bool := includes value (values m).

Fixpoint hasAnyKeys_loop (keys : list (list K)) (m : t) : bool :=
  match keys with
  | [] => false
  | key :: rest => if hasKey key m then true else hasAnyKeys_loop rest m
  end.

Definition hasAnyKeys (keys : list (list K)) (m : t) : bool :=
  if (length keys =? 0) || (MultiValueMap.size (keysMap m) =? 0) then false
  else hasAnyKeys_loop keys m.

Fixpoint hasAllKeys_loop (keys : list (list K)) (m : t) : bool :=
  match keys with
  | [] => true
  | key :: rest => if negb (hasKey key m) then false else hasAllKeys_loop rest m
  end.

Definition hasAllKeys (keys : list (list K)) (m : t) : bool :=
  if (length keys =? 0) || (MultiValueMap.size (keysMap m) =? 0) then false
  else hasAllKeys_loop keys m.

Fixpoint hasAnyValues_loop (values : list V) (m : t) : bool :=
  match values with
  | [] => false
  | value :: rest => if hasValue value m then true else hasAnyValues_loop rest m
  end.

Definition hasAnyValues (values : list V) (m : t) : bool :=
  if (length values =? 0) || (JsMap.size (valueMap m) =? 0) then false
  else hasAnyValues_loop values m.

Fixpoint hasAllValues_loop (values : list V) (m : t) : bool :=
  match values with
  | [] => true
  | value :: rest =>
      if negb (hasValue value m) then false else hasAllValues_loop rest m
  end.

Definition hasAllValues (values : list V) (m : t) : bool :=
  if (length values =? 0) || (JsMap.size (valueMap m) =? 0) then false
  else hasAllValues_loop values m.

Definition isEmpty (m : t) : bool := JsMap.size (valueMap m) =? 0.

(** [this.entries().forEach(...)] walks an array built before the first
    call, so the callback may change the map: it is handed the map and its
    own state and returns both, with the boolean. *)
Definition forEachBreakable {St : Type}
    (callback : V → list K → t → St → bool * (t * St)) (m : t) (st : St)
  : t * St :=
  array_forEach
    (λ entry '(m, st),
       let '(keys, value) := entry in
       let '(continue, after) := callback value keys m st in
       if negb continue then after (* return; *) else after)
    (entries m) (m, st).

(** A callback that, besides what [callback] does, notes down the entry it
    was called on. *)
Definition traced {St : Type}
    (callback : V → list K → t → St → bool * (t * St))
  : V → list K → t → list (list K * V) * St
    → bool * (t * (list (list K * V) * St)) :=
  λ value keys m '(log, st),
    let '(continue, (m', st')) := callback value keys m st in
    (continue, (m', (log ++ [(keys, value)], st'))).

(** The mutators of the public interface, and the state after a sequence of
    calls. *)
Inductive op :=
  | OpSet (keys : list K) (value : V)
  | OpDeleteByKey (keys : list K)
  | OpDeleteByValue (value : V)
  | OpDeleteByValues (values : list V)
  | OpClear.

Definition step (m : t) (o : op) : t :=
  match o with
  | OpSet keys value => set keys value m
  | OpDeleteByKey keys => (deleteByKey keys m).2
  | OpDeleteByValue value => (deleteByValue value m).2
  | OpDeleteByValues values => (deleteByValues values m).2
  | OpClear => clear m
  end.

Definition run (ops : list op) (m : t) : t := fold_left step ops m.

(** The two stores hold the same surrogates, in the same order. *)
Definition synchronized (m : t) : Prop :=
  MultiValueMap.keys (keysMap m) = JsMap.keys (valueMap m).

Definition isNotEmpty (m : t) : bool := 0 <? JsMap.size (valueMap m).

(** [keys?.length > 0 && this.get(keys) === value].  [get] gives [undefined]
    for keys that are not registered, and [undefined === value] holds exactly
    when [value] is [undefined]: [isUndefined] tells. *)
Definition hasKeyValue (isUndefined : V → bool)
    (keys : list K) (value : V) (m : t) : bool :=
  (0 <? length keys)
  && match get keys m with
     | Some v => strictEq v value
     | None => isUndefined value
     end.

(** [this.entries().forEach(entry => callback(value, keys, this))], the
    callback being free to change the map, as in [forEachBreakable]. *)
Definition forEach {St : Type}
    (callback : V → list K → t → St → t * St) (m : t) (st : St) : t * St :=
  array_forEach
    (λ entry '(m, st), let '(keys, value) := entry in callback value keys m st)
    (entries m) (m, st).

(** [let index = 0; this.entries().forEach(entry =>
    callback(value, keys, index++, this))] *)
Definition forEachIndexing {St : Type}
    (callback : V → list K → nat → t → St → t * St) (m : t) (st : St)
  : t * St :=
  (array_forEach
     (λ entry '(index, (m, st)),
        let '(keys, value) := entry in
        (index + 1, callback value keys index m st))
     (entries m) (0, (m, st))).2.

(** The state that holds the entries [es], each under the surrogate of its
    key array: what the two stores are in every reachable state. *)
Definition state_of (es : list (list K * V)) : t :=
  mk (map (λ e, (objectHash e.1, e.1)) es)
     (map (λ e, (objectHash e.1, e.2)) es).

(** [represents es m]: [m] holds exactly the entries [es], under distinct
    surrogates, and no key array is empty. *)
Definition represents (es : list (list K * V)) (m : t) : Prop :=
  m = state_of es
  ∧ NoDup (map objectHash es.*1)
  ∧ Forall (λ e, e.1 ≠ []) es.

(** The entries after [set(keys, value)]: the entry that has the surrogate
    of [keys] is replaced where it stands; without one, the new entry goes
    last. *)
Definition put_entry (keys : list K) (value : V) (es : list (list K * V))
  : list (list K * V) :=
  if bool_decide (objectHash keys ∈ map objectHash es.*1)
  then map (λ e, if decide (objectHash e.1 = objectHash keys)
                 then (keys, value) else e) es
  else es ++ [(keys, value)].

(** [[Symbol.iterator]()] *)
Definition iterator (m : t) : list (list K * V) := entries m.

(** An element of the tuple [[K[], V]] that [entries()] yields. *)
Inductive cell :=
  | CKeys (keys : list K)
  | CValue (value : V).

Context `{JsToString K} `{JsToString V}.

#[local] Instance cell_JsToString : JsToString cell :=
  {| toStr c :=
       match c with
       | CKeys keys => toStr keys
       | CValue value => toStr value
       end;
     joinStr c :=
       match c with
       | CKeys keys => joinStr keys
       | CValue value => joinStr value
       end |}.

(** The arrow function of [toString], on one element [entry] of [[...this]]:
    [entry.slice(0, -1)] is [removelast entry], [entry[entry.length - 1]] is
    [last entry], [undefined] when there is none. *)
Definition toString_entry (entry : list cell) : string :=
  let '(keys, value) :=
    if length entry <=? 1 then ([], head entry)
    else (removelast entry, last entry) in
  "[" +:+ array_join keys +:+ "]:" +:+ from_option toStr "undefined" value.

Definition toString (m : t) : string :=
  String.concat ";"
    (map (λ '(keys, value), toString_entry [CKeys keys; CValue value])
       (iterator m)).
End MultiKeyMap.
End MultiKeyMap.

(** ** Data of the scenarios *)
Module Scenarios.

(** A stand-in for [objectHash] on arrays of strings, to run the scenarios:
    the parts with a bar after each. *)
Definition sampleHash (keys : list string) : string :=
  String.concat "" (map (λ key, key +:+ "|") keys).

Definition strictEq_string (a b : string) : bool := bool_decide (a = b).

(** A key part that is an object: the reference (what SameValueZero compares)
    and the content (what a structural hash reads). *)
Definition obj : Type := nat * string.

Definition structEq_obj (a b : obj) : Prop := a.2 = b.2.

Definition hash_obj (keys : list obj) : string := sampleHash (keys.*2).

(** Key parts and values that may be [undefined] ([None]). *)
Definition hash_optional (keys : list (option string)) : string :=
  sampleHash (map (from_option id "undefined") keys).

Definition strictEq_optional (a b : option string) : bool :=
  bool_decide (a = b).

(** The callback of the [forEachBreakable] tests: it returns false on
    [stop] and pushes every other key (or value) onto its array. *)
Definition push_unless {A M : Type} `{EqDecision A} (stop : A)
    (x : A) (m : M) (array : list A) : bool * list A :=
  if decide (x = stop) then (false, array) else (true, array ++ [x]).

(** Keys and values that are strings, [undefined] or Symbols.  [join]
    prints a string as it is and [undefined] as nothing; a Symbol has no
    conversion to a string. *)
Inductive primitive :=
  | Str (s : string)
  | Undefined
  | Symbol (description : string).

Definition primitive_joinStr (p : primitive) : option string :=
  match p with
  | Str s => Some s
  | Undefined => Some ""
  | Symbol _ => None
  end.



(** Two keys that were given the same array object, [red], and the array
    [x] of a caller; the next new array is number 2. *)
Definition shared_heap : MultiValueMapRefs.heap (V:=string) :=
  MultiValueMapRefs.mkHeap
    (λ r, match r with 0 => ["red"] | 1 => ["x"] | _ => [] end) 2.

Definition shared_map : list (string * MultiValueMapRefs.ref) :=
  [("a", 0); ("b", 0)].

(** Two keys with an array each, [red] and [blue], and the array [x] of a
    caller. *)
Definition separate_heap : MultiValueMapRefs.heap (V:=string) :=
  MultiValueMapRefs.mkHeap
    (λ r, match r with 0 => ["red"] | 1 => ["blue"] | 2 => ["x"] | _ => [] end)
    3.

Definition separate_map : list (string * MultiValueMapRefs.ref) :=
  [("a", 0); ("b", 1)].

Definition students : list (list string * string) :=
  [(["row1"; "col1"], "LiLei"); (["row2"; "col2"], "HanMeimei")].

Definition palette : list (string * list string) :=
  [("color", ["red"; "green"; "blue"]);
   ("position", ["top"; "right"; "bottom"; "left"])].
End Scenarios.

(** * Properties *)

(** ** The built-in Map *)
Module JsMapFacts.
Section JsMapFacts.
Context {K V : Type} `{EqDecision K}.
Implicit Types (m : list (K * V)) (key : K) (value : V).

Lemma get_set_same key value m :
  JsMap.get key (JsMap.set key value m) = Some value.
Proof.
  induction m as [|[k v] rest IH]; simpl.
  - by rewrite decide_True.
  - destruct (decide (key = k)) as [->|Hne]; simpl.
    + by rewrite decide_True.
    + by rewrite decide_False.
Qed.

(** The keys after [set]: unchanged when the key is there, the key appended
    when it is not.  The values play no part. *)
Lemma keys_set key value m :
  JsMap.keys (JsMap.set key value m) =
  if decide (key ∈ JsMap.keys m) then JsMap.keys m else JsMap.keys m ++ [key].
Proof.
  unfold JsMap.keys.
  induction m as [|[k v] rest IH].
  - case_decide as Hin; [by apply elem_of_nil in Hin | done].
  - cbn [JsMap.set]. rewrite fmap_cons. cbn [fst].
    destruct (decide (key = k)) as [->|Hne].
    + rewrite decide_True; [done | by left].
    + rewrite fmap_cons, IH. cbn [fst].
      destruct (decide (key ∈ rest.*1)) as [Hin|Hnin].
      * rewrite decide_True; [done | by right].
      * rewrite decide_False; [done |].
        intros [?|?]%elem_of_cons; done.
Qed.

(** The keys after [delete]: the first occurrence of the key is gone. *)
Lemma keys_remove key m :
  JsMap.keys (JsMap.remove key m) = JsMap.remove_first key (JsMap.keys m).
Proof.
  unfold JsMap.keys.
  induction m as [|[k v] rest IH]; [done|].
  cbn [JsMap.remove]. rewrite fmap_cons. cbn [fst JsMap.remove_first].
  destruct (decide (key = k)); [done|].
  by rewrite fmap_cons, IH.
Qed.

Lemma has_keys key m : JsMap.has key m = bool_decide (key ∈ JsMap.keys m).
Proof. done. Qed.

Lemma size_keys m : JsMap.size m = length (JsMap.keys m).
Proof. unfold JsMap.size, JsMap.keys. by rewrite length_fmap. Qed.
End JsMapFacts.
End JsMapFacts.

(** ** MultiValueMap *)
Module MultiValueMapFacts.
Import MultiValueMap.
Section MultiValueMapFacts.
Context {K V : Type} `{EqDecision K} `{EqDecision V}.
Implicit Types (m : list (K * list V)) (key : K) (value : V).
Implicit Types (array values candidate stored : list V).

Lemma includes_true value array : includes value array = true ↔ value ∈ array.
Proof. unfold includes. by rewrite bool_decide_eq_true. Qed.

(** The test the inner loop of [hasValue] applies to one candidate element. *)
Lemma hasValue_inner_forallb array values exact rest result :
  hasValue_inner array values exact rest result =
  result
  && forallb
       (λ v, includes v array
             && (if exact then length array =? length values else true))
       rest.
Proof.
  set (p := λ v, includes v array
                 && (if exact then length array =? length values else true)).
  revert result. induction rest as [|v rest IH]; intros result.
  - cbn. by rewrite andb_true_r.
  - cbn [hasValue_inner forallb]. cbv zeta.
    rewrite <- (andb_assoc result). fold (p v).
    destruct (result && p v) eqn:E; cbn [negb].
    + rewrite IH. by apply andb_true_iff in E as [-> ->].
    + apply andb_false_iff in E as [-> | ->]; [done | by rewrite andb_false_r].
Qed.

Lemma hasValue_inner_true array values exact :
  hasValue_inner array values exact values true = true ↔
  (∀ v, v ∈ values → v ∈ array)
  ∧ (values ≠ [] → exact = true → length array = length values).
Proof.
  rewrite hasValue_inner_forallb, andb_true_l, forallb_forall.
  setoid_rewrite andb_true_iff. setoid_rewrite includes_true.
  setoid_rewrite <- list_elem_of_In.
  split.
  - intros Hall. split; [intros v Hv; by apply Hall|].
    intros Hne ->. destruct values as [|v values']; [done|].
    destruct (Hall v) as [_ Hlen]; [by left|]. by apply Nat.eqb_eq.
  - intros [Hincl Hlen] v Hv. split; [by apply Hincl|].
    destruct exact; [|done]. apply Nat.eqb_eq, Hlen; [|done].
    intros ->. by apply elem_of_nil in Hv.
Qed.

Lemma hasValue_outer_true arrays values exact :
  hasValue_outer arrays values exact = true ↔
  ∃ array, array ∈ arrays ∧ hasValue_inner array values exact values true = true.
Proof.
  induction arrays as [|array arrays IH]; cbn [hasValue_outer].
  - split; [done | intros (? & []%elem_of_nil & _)].
  - destruct (hasValue_inner array values exact values true) eqn:E.
    + split; [|done]. intros _. exists array. split; [by left | done].
    + rewrite IH. split.
      * intros (a & Ha & Hm). exists a. split; [by right | done].
      * intros (a & [->|Ha]%elem_of_cons & Hm); [congruence|]. by exists a.
Qed.

Lemma hasValue_guard values exact m :
  hasValue values exact m =
  negb (bool_decide (values = [])) && negb (bool_decide (m = []))
  && hasValue_outer (MultiValueMap.values m) values exact.
Proof.
  unfold hasValue, size, JsMap.size.
  destruct values, m; done.
Qed.

Lemma hasValue_true values exact m :
  hasValue values exact m = true ↔
  values ≠ [] ∧
  ∃ stored, stored ∈ MultiValueMap.values m
            ∧ (∀ v, v ∈ values → v ∈ stored)
            ∧ (exact = true → length stored = length values).
Proof.
  rewrite hasValue_guard, !andb_true_iff, !negb_true_iff, !bool_decide_eq_false.
  rewrite hasValue_outer_true. setoid_rewrite hasValue_inner_true.
  split.
  - intros [[Hv _] (stored & Hin & Hincl & Hlen)].
    split; [done|]. exists stored. auto.
  - intros [Hv (stored & Hin & Hincl & Hlen)].
    split; [split; [done|] | exists stored; auto].
    intros ->. by apply elem_of_nil in Hin.
Qed.

(** With the same length and no repeated candidate element, containing every
    candidate element is being a permutation. *)
Lemma same_length_incl_Permutation candidate stored :
  NoDup candidate → length stored = length candidate →
  (∀ v, v ∈ candidate → v ∈ stored) → stored ≡ₚ candidate.
Proof.
  intros Hnd Hlen Hincl. symmetry.
  apply submseteq_length_Permutation; [by apply NoDup_submseteq | lia].
Qed.

(** C6, as amended: [hasValue(candidate, exact)] is false when the candidate
    or the map is empty.  For a candidate that is not empty, without [exact]
    it is true exactly when some stored array contains every candidate
    element; with [exact] it is true exactly when some stored array has the
    candidate's length and contains every candidate element.  That is
    multiset equality when no candidate element is repeated.  It is false
    when no stored array has the candidate's length, and true on a candidate
    that is a stored array. *)
Theorem hasValue_matching candidate m :
  (∀ exact, hasValue [] exact m = false
            ∧ hasValue candidate exact (empty (K:=K)) = false)
  ∧ (hasValue candidate false m = true ↔
       candidate ≠ [] ∧
       ∃ stored, stored ∈ values m ∧ ∀ v, v ∈ candidate → v ∈ stored)
  ∧ (hasValue candidate true m = true ↔
       candidate ≠ [] ∧
       ∃ stored, stored ∈ values m ∧ length stored = length candidate
                 ∧ ∀ v, v ∈ candidate → v ∈ stored)
  ∧ (NoDup candidate →
       hasValue candidate true m = true ↔
       candidate ≠ [] ∧ ∃ stored, stored ∈ values m ∧ stored ≡ₚ candidate)
  ∧ ((∀ stored, stored ∈ values m → length stored ≠ length candidate) →
       hasValue candidate true m = false)
  ∧ (candidate ≠ [] → candidate ∈ values m →
       hasValue candidate true m = true).
Proof.
  assert (Hexact : hasValue candidate true m = true ↔
       candidate ≠ [] ∧
       ∃ stored, stored ∈ values m ∧ length stored = length candidate
                 ∧ ∀ v, v ∈ candidate → v ∈ stored).
  { rewrite hasValue_true. split.
    - intros [Hne (stored & Hin & Hincl & Hlen)]. split; [done|].
      exists stored. auto.
    - intros [Hne (stored & Hin & Hlen & Hincl)]. split; [done|].
      exists stored. auto. }
  split; [|split; [|split; [done|split; [|split]]]].
  - intros exact. split; [reflexivity|].
    unfold hasValue. cbn. by rewrite orb_true_r.
  - rewrite hasValue_true. split.
    + intros [Hne (stored & Hin & Hincl & _)]. split; [done|]. by exists stored.
    + intros [Hne (stored & Hin & Hincl)]. split; [done|].
      exists stored. done.
  - intros Hnd. rewrite Hexact. split.
    + intros [Hne (stored & Hin & Hlen & Hincl)]. split; [done|].
      exists stored. split; [done|].
      by apply same_length_incl_Permutation.
    + intros [Hne (stored & Hin & Hperm)]. split; [done|].
      exists stored. split; [done|]. split; [by rewrite Hperm|].
      intros v Hv. by rewrite Hperm.
  - intros Hlen. apply not_true_is_false. rewrite Hexact.
    intros [_ (stored & Hin & Heq & _)]. by apply (Hlen stored).
  - intros Hne Hin. apply Hexact. split; [done|]. by exists candidate.
Qed.

Lemma remove_absent key m : key ∉ JsMap.keys m → JsMap.remove key m = m.
Proof.
  unfold JsMap.keys. induction m as [|[k v] rest IH]; [done|].
  rewrite fmap_cons, not_elem_of_cons. cbn [fst JsMap.remove].
  intros [Hne Hnin]. rewrite decide_False by done. by rewrite IH.
Qed.

Lemma delete_cases key m :
  JsMap.delete key m = (false, m) ∨ JsMap.delete key m = (true, JsMap.remove key m).
Proof.
  unfold JsMap.delete, JsMap.has. case_bool_decide as Hin; [by right|].
  left. by rewrite remove_absent.
Qed.

(** Once [result] is true, [result || this.map.delete(key)] deletes nothing:
    the rest of either loop leaves the map as it is. *)
Lemma deleteByKeys_loop_done (keys : list K) m :
  fold_left (λ '(result, m) key, lazy_or result (JsMap.delete key) m)
    keys (true, m) = (true, m).
Proof. induction keys as [|key keys IH]; [done|]. cbn. apply IH. Qed.

Lemma deleteByValue_loop_done value (es : list (K * list V)) m :
  fold_left
    (λ '(result, m) '(key, values),
       if includes value values
       then lazy_or result (JsMap.delete key) m
       else (result, m))
    es (true, m) = (true, m).
Proof.
  induction es as [|[key values] es IH]; [done|]. cbn [fold_left].
  destruct (includes value values); cbn [lazy_or]; apply IH.
Qed.

(** What [deleteByValue] does: it removes at most one entry. *)
Lemma deleteByValue_at_most_one value m :
  deleteByValue value m = (false, m)
  ∨ ∃ key, deleteByValue value m = (true, JsMap.remove key m).
Proof.
  unfold deleteByValue. destruct (size m =? 0); [by left|].
  generalize (entries m). intros es.
  induction es as [|[key values] es IH]; [by left|]. cbn [fold_left].
  destruct (includes value values); [|done]. cbn [lazy_or].
  destruct (delete_cases key m) as [-> | ->]; [done|].
  right. exists key. apply deleteByValue_loop_done.
Qed.

(** What [deleteByKeys] does: it removes at most one entry. *)
Lemma deleteByKeys_at_most_one (keys : list K) m :
  deleteByKeys keys m = (false, m)
  ∨ ∃ key, deleteByKeys keys m = (true, JsMap.remove key m).
Proof.
  unfold deleteByKeys. destruct ((length keys =? 0) || (size m =? 0)); [by left|].
  induction keys as [|key keys IH]; [by left|]. cbn [fold_left lazy_or].
  destruct (delete_cases key m) as [-> | ->]; [done|].
  right. exists key. apply deleteByKeys_loop_done.
Qed.
End MultiValueMapFacts.

(** C6, as the claim states it, fails: with [exact], the candidate
    [a, a] matches the stored array [a, b], which is not the same multiset. *)
Lemma hasValue_exact_is_not_multiset_equality :
  hasValue ["a"; "a"] true (of_entries [("pair", ["a"; "b"])]) = true
  ∧ ¬ ∃ stored, stored ∈ values (of_entries [("pair", ["a"; "b"])])
                ∧ stored ≡ₚ ["a"; "a"].
Proof.
  split; [done|].
  intros (stored & Hin & Hperm). cbn in Hin.
  apply list_elem_of_singleton in Hin as ->.
  assert (Hb : "b" ∈ ["a"; "a"]) by (rewrite <- Hperm; repeat constructor).
  apply elem_of_cons in Hb as [Hb|Hb]; [discriminate|].
  apply elem_of_cons in Hb as [Hb|Hb]; [discriminate|].
  by apply elem_of_nil in Hb.
Qed.

(** C3 at the failing input: two entries contain [red]; [deleteByValue]
    removes the first and keeps the second. *)
Lemma deleteByValue_keeps_second_match :
  deleteByValue "red"
    (of_entries [("color", ["red"; "green"]); ("flag", ["red"; "white"])])
  = (true, [("flag", ["red"; "white"])]).
Proof. vm_compute. reflexivity. Qed.

(** C4 at the failing input: both keys are present; [deleteByKeys] removes
    the first and keeps the second. *)
Lemma deleteByKeys_keeps_second_key :
  deleteByKeys ["color"; "position"] (of_entries Scenarios.palette)
  = (true, [("position", ["top"; "right"; "bottom"; "left"])])
  ∧ hasKey "position"
      (deleteByKeys ["color"; "position"] (of_entries Scenarios.palette)).2
    = true.
Proof. vm_compute. split; reflexivity. Qed.
End MultiValueMapFacts.

(** ** MultiKeyMap *)
Module MultiKeyMapFacts.
Import MultiKeyMap.
Section MultiKeyMapFacts.
Context {K V : Type} `{EqDecision K} `{EqDecision V}.
Variable objectHash : list K → string.
Variable strictEq : V → V → bool.
Implicit Types (m : t (K:=K) (V:=V)) (keys : list K) (value : V) (hash : string).

(** *** The two stores stay synchronized *)

Lemma synchronized_empty : synchronized (empty (K:=K) (V:=V)).
Proof. done. Qed.

Lemma synchronized_set keys value m :
  synchronized m → synchronized (set objectHash keys value m).
Proof.
  unfold synchronized, set, MultiValueMap.keys, MultiValueMap.set. intros Hs.
  destruct (length keys =? 0); [done|]. cbn [keysMap valueMap].
  by rewrite !JsMapFacts.keys_set, Hs.
Qed.

Lemma synchronized_clear m : synchronized (clear m).
Proof. done. Qed.

(** Deleting one surrogate from both stores. *)
Lemma synchronized_delete_both hash m :
  synchronized m →
  synchronized (mk (MultiValueMap.deleteByKey hash (keysMap m)).2
                   (JsMap.delete hash (valueMap m)).2).
Proof.
  unfold synchronized, MultiValueMap.keys, MultiValueMap.deleteByKey, JsMap.delete.
  intros Hs. cbn [keysMap valueMap snd].
  by rewrite !JsMapFacts.keys_remove, Hs.
Qed.

Lemma synchronized_deleteByKey keys m :
  synchronized m → synchronized (deleteByKey objectHash keys m).2.
Proof.
  intros Hs. unfold deleteByKey.
  destruct (length keys =? 0); [done|].
  destruct (negb _); [done|]. by apply synchronized_delete_both.
Qed.

Lemma synchronized_deleteByValue value m :
  synchronized m → synchronized (deleteByValue strictEq value m).2.
Proof.
  intros Hs. unfold deleteByValue.
  destruct (JsMap.size (valueMap m) =? 0); [done|].
  generalize (JsMap.entries (valueMap m)). intros es.
  change m with (false, m).2 in Hs. revert Hs.
  generalize (false, m). clear m.
  induction es as [|[k v] es IH]; intros [result m] Hs; [done|].
  cbn [fold_left]. apply IH.
  destruct (strictEq v value); [|done]. by apply synchronized_delete_both.
Qed.

Lemma synchronized_deleteByValues (values : list V) m :
  synchronized m → synchronized (deleteByValues strictEq values m).2.
Proof.
  intros Hs. unfold deleteByValues.
  destruct ((length values =? 0) || _); [done|].
  change m with (false, m).2 in Hs. revert Hs.
  generalize (false, m). clear m.
  induction values as [|value values IH]; intros [result m] Hs; [done|].
  cbn [fold_left]. apply IH.
  destruct result; cbn [lazy_or]; [done|]. by apply synchronized_deleteByValue.
Qed.

Lemma synchronized_step m (o : op) :
  synchronized m → synchronized (step objectHash strictEq m o).
Proof.
  intros Hs. destruct o; cbn [step].
  - by apply synchronized_set.
  - by apply synchronized_deleteByKey.
  - by apply synchronized_deleteByValue.
  - by apply synchronized_deleteByValues.
  - apply synchronized_clear.
Qed.

Lemma synchronized_run (ops : list op) m :
  synchronized m → synchronized (run objectHash strictEq ops m).
Proof.
  unfold run. revert m.
  induction ops as [|o ops IH]; intros m Hs; [done|].
  cbn [fold_left]. by apply IH, synchronized_step.
Qed.

Lemma synchronized_of_entries (entries : list (list K * V)) :
  synchronized (of_entries objectHash entries).
Proof.
  unfold of_entries, array_forEach.
  generalize synchronized_empty. generalize (empty (K:=K) (V:=V)).
  induction entries as [|[keys value] entries IH]; intros m Hs; [done|].
  cbn [fold_left]. by apply IH, synchronized_set.
Qed.

(** C1: in every state reached from a constructor call by calls of [set],
    [deleteByKey], [deleteByValue], [deleteByValues] and [clear], the
    key-parts store and the value store hold the same surrogates (here even in
    the same order), so a surrogate is in one exactly when it is in the other,
    and the two sizes are equal. *)
Theorem keysMap_valueMap_synchronized
    (entries : list (list K * V)) (ops : list op) :
  let m := run objectHash strictEq ops (of_entries objectHash entries) in
  synchronized m
  ∧ (∀ hash, hash ∈ MultiValueMap.keys (keysMap m)
             ↔ hash ∈ JsMap.keys (valueMap m))
  ∧ (∀ hash, MultiValueMap.hasKey hash (keysMap m) = JsMap.has hash (valueMap m))
  ∧ MultiValueMap.size (keysMap m) = JsMap.size (valueMap m).
Proof.
  intros m.
  assert (Hs : synchronized m) by apply synchronized_run, synchronized_of_entries.
  split; [done|]. unfold synchronized, MultiValueMap.keys in Hs.
  split; [|split].
  - intros hash. unfold MultiValueMap.keys. by rewrite Hs.
  - intros hash. unfold MultiValueMap.hasKey.
    by rewrite !JsMapFacts.has_keys, Hs.
  - unfold MultiValueMap.size. by rewrite !JsMapFacts.size_keys, Hs.
Qed.

(** *** Reading back what was set *)

Section StructuralHash.
(** Structural (deep) equality of key parts, as opposed to the identity that
    [EqDecision K] decides; the hasher does not tell structurally equal
    arrays apart. *)
Variable structEq : K → K → Prop.
Hypothesis objectHash_structural : ∀ keys keys',
  Forall2 structEq keys keys' → objectHash keys = objectHash keys'.

(** C2: after [set(keys, value)] with [keys] not empty, [get(keys)] is
    [value], and so is [get(keys')] for every [keys'] that is element-wise
    structurally equal to [keys]. *)
Theorem set_get_roundtrip m keys value :
  keys ≠ [] →
  get objectHash keys (set objectHash keys value m) = Some value
  ∧ ∀ keys', Forall2 structEq keys keys' →
             get objectHash keys' (set objectHash keys value m) = Some value.
Proof.
  intros Hne.
  assert (Hlen : (length keys =? 0) = false).
  { destruct keys; [done|]. reflexivity. }
  split.
  - unfold get, set. rewrite Hlen. cbn [valueMap].
    apply JsMapFacts.get_set_same.
  - intros keys' Heq. unfold get, set.
    rewrite <- (Forall2_length _ _ _ Heq), Hlen. cbn [valueMap].
    rewrite <- (objectHash_structural _ _ Heq).
    apply JsMapFacts.get_set_same.
Qed.
End StructuralHash.

(** *** Empty key arrays *)

(** C7: [get([])] is [undefined], [set([], value)] leaves the state as it is,
    and [deleteByKey()] without key parts returns false and leaves the state
    as it is. *)
Theorem empty_keys_are_ignored m value :
  get objectHash [] m = None
  ∧ set objectHash [] value m = m
  ∧ deleteByKey objectHash [] m = (false, m).
Proof.
  split; [|split].
  - unfold get. reflexivity.
  - unfold set. reflexivity.
  - unfold deleteByKey. reflexivity.
Qed.

(** *** hasKey *)

(** What [hasKey] decides: some registered key array has the length of
    [keys] and contains each of its elements. *)
Lemma hasKey_true keys m :
  hasKey keys m = true ↔
  keys ≠ [] ∧
  ∃ stored, stored ∈ MultiKeyMap.keys m ∧ length stored = length keys
            ∧ ∀ k, k ∈ keys → k ∈ stored.
Proof.
  unfold hasKey, MultiKeyMap.keys.
  rewrite andb_true_iff, MultiValueMapFacts.hasValue_true.
  split.
  - intros [_ [Hne (stored & Hin & Hincl & Hlen)]]. split; [done|].
    exists stored. auto.
  - intros [Hne (stored & Hin & Hlen & Hincl)]. split.
    + destruct keys; [done|]. reflexivity.
    + split; [done|]. exists stored. auto.
Qed.

Lemma set_registers_keys keys value m :
  keys ≠ [] → keys ∈ MultiKeyMap.keys (set objectHash keys value m).
Proof.
  intros Hne. unfold set, MultiKeyMap.keys.
  destruct keys as [|k keys]; [done|]. cbn [length Nat.eqb keysMap].
  generalize (objectHash (k :: keys)). intros hash.
  unfold MultiValueMap.values, MultiValueMap.set, JsMap.values.
  induction (keysMap m) as [|[h stored] rest IH]; cbn [JsMap.set].
  - rewrite fmap_cons. by left.
  - destruct (decide (hash = h)); rewrite fmap_cons; [by left | by right].
Qed.

(** [hasKey] does not look at the order of the key parts. *)
Lemma hasKey_permutation keys keys' value m :
  keys ≠ [] → keys' ≡ₚ keys →
  hasKey keys' (set objectHash keys value m) = true.
Proof.
  intros Hne Hperm. apply hasKey_true. split.
  - intros ->. by apply Permutation_nil_l in Hperm.
  - exists keys. split; [by apply set_registers_keys|].
    split; [by rewrite Hperm|]. intros k Hk. by rewrite <- Hperm.
Qed.

(** *** toString *)

(** One element of [[...this]] is the pair [[keys, value]]: the arrow
    function of [toString] takes [[keys]] for its key list and [value] for
    its value, and joining [[keys]] is joining [keys]. *)
Lemma toString_entry_pair `{JsToString K} `{JsToString V} keys value :
  toString_entry [CKeys keys; CValue value] =
  "[" +:+ String.concat "," (map joinStr keys) +:+ "]:" +:+ toStr value.
Proof. reflexivity. Qed.
End MultiKeyMapFacts.

(** C9: [toString()] renders each entry as its key parts joined by commas
    inside square brackets, a colon and the value, and joins the entries by
    semicolons in the order of [entries()]; for the two entries of the
    scenario the result is [[row1,col1]:LiLei;[row2,col2]:HanMeimei]. *)
Theorem toString_rendering :
  (∀ (K V : Type) `(JsToString K) `(JsToString V) (m : t (K:=K) (V:=V)),
     toString m =
     String.concat ";"
       (map (λ '(keys, value),
               "[" +:+ String.concat "," (map joinStr keys) +:+ "]:"
               +:+ toStr value)
          (entries m)))
  ∧ (∀ m : t, entries m = Scenarios.students →
       toString m = "[row1,col1]:LiLei;[row2,col2]:HanMeimei")
  ∧ (∀ objectHash : list string → string,
       objectHash ["row1"; "col1"] ≠ objectHash ["row2"; "col2"] →
       toString (of_entries objectHash Scenarios.students)
       = "[row1,col1]:LiLei;[row2,col2]:HanMeimei").
Proof.
  assert (Hgen : ∀ (K V : Type) `(JsToString K) `(JsToString V)
                   (m : t (K:=K) (V:=V)),
     toString m =
     String.concat ";"
       (map (λ '(keys, value),
               "[" +:+ String.concat "," (map joinStr keys) +:+ "]:"
               +:+ toStr value)
          (entries m))).
  { intros K V HK HV m. unfold toString, iterator.
    apply (f_equal (String.concat ";")), map_ext.
    intros [keys value]. apply toString_entry_pair. }
  assert (Hscenario : ∀ m : t, entries m = Scenarios.students →
       toString m = "[row1,col1]:LiLei;[row2,col2]:HanMeimei").
  { intros m Hm. rewrite Hgen, Hm. reflexivity. }
  split; [done|]. split; [done|].
  intros objectHash Hne. apply Hscenario.
  unfold of_entries, array_forEach, Scenarios.students. cbn [fold_left].
  unfold set, empty, entries, MultiValueMap.set, MultiValueMap.empty,
    MultiValueMap.get.
  cbn [length Nat.eqb keysMap valueMap JsMap.set JsMap.empty].
  rewrite !decide_False by done.
  cbn [JsMap.size length Nat.eqb map JsMap.get].
  rewrite !decide_True by done. rewrite decide_False by done.
  rewrite decide_True by done.
  reflexivity.
Qed.

(** The scenario of C9, run with the stand-in hasher. *)
Lemma toString_rendering_students :
  toString (of_entries Scenarios.sampleHash Scenarios.students)
  = "[row1,col1]:LiLei;[row2,col2]:HanMeimei".
Proof.
  apply (proj2 (proj2 toString_rendering) Scenarios.sampleHash).
  vm_compute. discriminate.
Defined.

(** C5 at the failing input: only [row1, col1] is registered, and [hasKey]
    answers true for [col1, row1], for which [get] finds nothing. *)
Lemma hasKey_accepts_permuted_keys :
  let m := of_entries Scenarios.sampleHash [(["row1"; "col1"], "LiLei")] in
  keys m = [["row1"; "col1"]]
  ∧ hasKey ["col1"; "row1"] m = true
  ∧ get Scenarios.sampleHash ["col1"; "row1"] m = None.
Proof. vm_compute. repeat split. Qed.

(** C5 on key parts that are objects: [hasKey] compares the parts with
    [includes], by identity, so an array of other objects with the registered
    contents is not found, although [get] finds its value. *)
Lemma hasKey_compares_parts_by_identity :
  let m :=
    set Scenarios.hash_obj [(0, "row1"); (1, "col1")] "LiLei" empty in
  hasKey [(2, "row1"); (3, "col1")] m = false
  ∧ get Scenarios.hash_obj [(2, "row1"); (3, "col1")] m = Some "LiLei".
Proof. vm_compute. split; reflexivity. Qed.

Lemma hash_obj_structural (keys keys' : list Scenarios.obj) :
  Forall2 Scenarios.structEq_obj keys keys' →
  Scenarios.hash_obj keys = Scenarios.hash_obj keys'.
Proof.
  unfold Scenarios.hash_obj. intros Heq. f_equal.
  induction Heq as [|a b keys keys' Hab _ IH]; [done|].
  rewrite !fmap_cons. by f_equal.
Qed.

(** C2 on two arrays of distinct objects with the same contents. *)
Lemma set_get_roundtrip_objects :
  let keys := [(0, "row1"); (1, "col1")] in
  let keys' := [(2, "row1"); (3, "col1")] in
  keys ≠ keys'
  ∧ get Scenarios.hash_obj keys'
      (set Scenarios.hash_obj keys "LiLei" empty) = Some "LiLei".
Proof.
  split; [discriminate|].
  apply (set_get_roundtrip Scenarios.hash_obj Scenarios.structEq_obj
           hash_obj_structural empty [(0, "row1"); (1, "col1")] "LiLei").
  - discriminate.
  - repeat constructor.
Defined.
End MultiKeyMapFacts.

(** ** The any/all predicates *)

(** Scenario C of the specification, on the modelled [hasAnyValues] and
    [hasAllValues]. *)
Lemma scenario_C :
  let m := MultiValueMap.of_entries Scenarios.palette in
  MultiValueMap.hasAnyValues [["red"; "black"]; ["green"; "blue"]] m = false
  ∧ MultiValueMap.hasAnyValues
      [["top"; "right"]; ["top"; "right"; "bottom"; "left"]] m = true
  ∧ MultiValueMap.hasAllValues
      [["red"; "black"]; ["red"; "green"; "blue"]] m = false
  ∧ MultiValueMap.hasAllValues
      [["red"; "green"; "blue"]; ["top"; "right"; "bottom"; "left"]] m = true.
Proof. vm_compute. repeat split. Qed.



(** ** The scenarios of the specification and the tests of the repository *)

(** Scenario A: [set] then [get], and the size. *)
Lemma scenario_A :
  let m :=
    MultiKeyMap.set Scenarios.sampleHash ["row1"; "col1"] "LiLei"
      MultiKeyMap.empty in
  MultiKeyMap.get Scenarios.sampleHash ["row1"; "col1"] m = Some "LiLei"
  ∧ MultiKeyMap.size m = 1.
Proof. vm_compute. split; reflexivity. Qed.

(** Scenario B: the entry [[[undefined], undefined]] counts, and
    [deleteByValues(undefined)] removes it. *)
Lemma scenario_B :
  let m := MultiKeyMap.of_entries Scenarios.hash_optional [([None], None)] in
  MultiKeyMap.size m = 1
  ∧ MultiKeyMap.size
      (MultiKeyMap.deleteByValues Scenarios.strictEq_optional [None] m).2 = 0.
Proof. vm_compute. split; reflexivity. Qed.

(** Scenario E: [push] appends, keeping order and duplicates. *)
Lemma scenario_E :
  MultiValueMap.get "color"
    (MultiValueMap.push "color" ["yellow"; "black"]
       (MultiValueMap.of_entries [("color", ["red"; "green"; "blue"])]))
  = Some ["red"; "green"; "blue"; "yellow"; "black"].
Proof. vm_compute. reflexivity. Qed.

(** [deleteByKey] on the same keys twice: true, then false. *)
Lemma deleteByKey_twice :
  let m := MultiKeyMap.of_entries Scenarios.sampleHash Scenarios.students in
  let first := MultiKeyMap.deleteByKey Scenarios.sampleHash ["row1"; "col1"] m in
  let second :=
    MultiKeyMap.deleteByKey Scenarios.sampleHash ["row1"; "col1"] first.2 in
  first.1 = true ∧ second.1 = false ∧ second.2 = first.2
  ∧ MultiKeyMap.size first.2 = 1.
Proof. vm_compute. repeat split. Qed.

(** The test of [deleteValueOfKey]: both occurrences of [blue] go. *)
Lemma test_deleteValueOfKey :
  length <$>
    MultiValueMap.get "color"
      (MultiValueMap.deleteValueOfKey Scenarios.strictEq_string "color" "blue"
         (MultiValueMap.of_entries
            [("color", ["red"; "green"; "blue"; "blue"])])).2
  = Some 2.
Proof. vm_compute. reflexivity. Qed.

(** The tests of [forEachBreakable] return false on the last entry, where
    there is nothing left to skip: the array ends with one element, as the
    tests expect.  Returning false on the first entry still lets the second
    one in. *)
Lemma test_forEachBreakable :
  let m := MultiValueMap.of_entries Scenarios.palette in
  MultiValueMap.forEachBreakable 3
    (MultiValueMap.quiet (λ _ key, Scenarios.push_unless "position" key)) m []
  = Some (m, ["color"])
  ∧ MultiValueMap.forEachBreakable 3
      (MultiValueMap.quiet (λ _ key, Scenarios.push_unless "color" key)) m []
    = Some (m, ["position"]).
Proof. vm_compute. split; reflexivity. Qed.

(** * Further properties of the code *)

(** ** The built-in Map, continued *)
Module JsMapLaws.
Section JsMapLaws.
Context {K V : Type} `{EqDecision K}.
Implicit Types (m : list (K * V)) (key : K) (value : V).

Lemma get_set_other key key' value m :
  key' ≠ key → JsMap.get key' (JsMap.set key value m) = JsMap.get key' m.
Proof.
  intros Hne. induction m as [|[k v] rest IH]; cbn [JsMap.set JsMap.get].
  - by rewrite decide_False.
  - destruct (decide (key = k)) as [->|Hk]; cbn [JsMap.get].
    + by rewrite !decide_False.
    + destruct (decide (key' = k)); [done | apply IH].
Qed.

Lemma get_remove_other key key' m :
  key' ≠ key → JsMap.get key' (JsMap.remove key m) = JsMap.get key' m.
Proof.
  intros Hne. induction m as [|[k v] rest IH]; [done|].
  cbn [JsMap.remove JsMap.get].
  destruct (decide (key = k)) as [->|Hk]; cbn [JsMap.get].
  - by rewrite decide_False.
  - destruct (decide (key' = k)); [done | apply IH].
Qed.

Lemma set_absent key value m :
  JsMap.get key m = None → JsMap.set key value m = m ++ [(key, value)].
Proof.
  induction m as [|[k v] rest IH]; [done|].
  cbn [JsMap.get JsMap.set]. case_decide; [done|].
  intros Hget. by rewrite IH.
Qed.

Lemma set_present key value m :
  JsMap.get key m = Some value → JsMap.set key value m = m.
Proof.
  induction m as [|[k v] rest IH]; [done|].
  cbn [JsMap.get JsMap.set]. case_decide as Hk; [congruence|].
  intros Hget. by rewrite IH.
Qed.

Lemma get_None key m : JsMap.get key m = None ↔ key ∉ JsMap.keys m.
Proof.
  unfold JsMap.keys. induction m as [|[k v] rest IH]; cbn [JsMap.get].
  - split; [intros _; apply not_elem_of_nil | done].
  - rewrite fmap_cons, not_elem_of_cons. cbn [fst].
    destruct (decide (key = k)) as [->|Hk]; [split; [done | by intros []]|].
    rewrite IH. tauto.
Qed.

Lemma has_get key m : JsMap.has key m = bool_decide (is_Some (JsMap.get key m)).
Proof.
  unfold JsMap.has. apply bool_decide_ext.
  rewrite <- not_eq_None_Some, get_None. unfold JsMap.keys.
  split; [tauto | apply dec_stable].
Qed.

Lemma get_Some_elem key value m :
  JsMap.get key m = Some value → (key, value) ∈ m.
Proof.
  induction m as [|[k v] rest IH]; cbn [JsMap.get]; [done|].
  destruct (decide (key = k)) as [->|Hk].
  - intros [= ->]. by left.
  - intros Hget. right. by apply IH.
Qed.

Lemma elem_get key value m :
  NoDup (JsMap.keys m) → (key, value) ∈ m → JsMap.get key m = Some value.
Proof.
  unfold JsMap.keys. induction m as [|[k v] rest IH]; [by intros _ ?%elem_of_nil|].
  rewrite fmap_cons, NoDup_cons. cbn [fst JsMap.get].
  intros [Hk Hnd] [[= -> ->]|Hin]%elem_of_cons.
  - by rewrite decide_True.
  - rewrite decide_False; [by apply IH|].
    intros ->. apply Hk. by apply (list_elem_of_fmap_2 fst _ (k, value)).
Qed.

Lemma remove_first_subset key k (l : list K) :
  k ∈ JsMap.remove_first key l → k ∈ l.
Proof.
  induction l as [|x l IH]; cbn [JsMap.remove_first]; [done|].
  destruct (decide (key = x)); [by right|].
  intros [->|?]%elem_of_cons; [by left | right; by apply IH].
Qed.

Lemma NoDup_remove_first key (l : list K) :
  NoDup l → NoDup (JsMap.remove_first key l).
Proof.
  induction 1 as [|x l Hx Hnd IH]; cbn [JsMap.remove_first]; [constructor|].
  destruct (decide (key = x)); [done|].
  constructor; [|done]. intros Hin. by apply Hx, (remove_first_subset key).
Qed.

Lemma not_elem_remove_first key (l : list K) :
  NoDup l → key ∉ JsMap.remove_first key l.
Proof.
  induction 1 as [|x l Hx Hnd IH]; cbn [JsMap.remove_first].
  - apply not_elem_of_nil.
  - destruct (decide (key = x)) as [->|Hne]; [done|].
    by rewrite not_elem_of_cons.
Qed.

Lemma NoDup_keys_set key value m :
  NoDup (JsMap.keys m) → NoDup (JsMap.keys (JsMap.set key value m)).
Proof.
  intros Hnd. rewrite JsMapFacts.keys_set. case_decide as Hin; [done|].
  apply NoDup_app. split; [done|]. split; [|apply NoDup_singleton].
  intros k Hk ->%list_elem_of_singleton. done.
Qed.

Lemma NoDup_keys_remove key m :
  NoDup (JsMap.keys m) → NoDup (JsMap.keys (JsMap.remove key m)).
Proof. rewrite JsMapFacts.keys_remove. apply NoDup_remove_first. Qed.

Lemma get_remove_same key m :
  NoDup (JsMap.keys m) → JsMap.get key (JsMap.remove key m) = None.
Proof.
  intros Hnd. apply get_None. rewrite JsMapFacts.keys_remove.
  by apply not_elem_remove_first.
Qed.

Lemma size_set key value m :
  JsMap.size (JsMap.set key value m) =
  if JsMap.has key m then JsMap.size m else S (JsMap.size m).
Proof.
  rewrite !JsMapFacts.size_keys, JsMapFacts.keys_set, JsMapFacts.has_keys.
  case_decide as Hin.
  - by rewrite bool_decide_eq_true_2.
  - rewrite bool_decide_eq_false_2 by done. rewrite length_app. cbn. lia.
Qed.

Lemma size_remove key m :
  JsMap.size (JsMap.remove key m) =
  if JsMap.has key m then JsMap.size m - 1 else JsMap.size m.
Proof.
  unfold JsMap.size, JsMap.has.
  induction m as [|[k v] rest IH]; [done|].
  cbn [JsMap.remove]. rewrite fmap_cons. cbn [fst length].
  destruct (decide (key = k)) as [->|Hne].
  - rewrite bool_decide_eq_true_2 by (by left). lia.
  - cbn [length]. rewrite IH.
    rewrite (bool_decide_ext (key ∈ k :: rest.*1) (key ∈ rest.*1)).
    + case_bool_decide as Hin; [|done].
      destruct rest; [by apply elem_of_nil in Hin | cbn; lia].
    + rewrite elem_of_cons. tauto.
Qed.
End JsMapLaws.
End JsMapLaws.

(** ** MultiValueMap, continued *)
Module MultiValueMapLaws.
Import MultiValueMap.
Section MultiValueMapLaws.
Context {K V : Type} `{EqDecision K} `{EqDecision V}.
Variable strictEq : V → V → bool.
Implicit Types (m : list (K * list V)) (key : K) (value : V).
Implicit Types (array values : list V) (keys : list K).

(** *** set, get and the constructor *)

Lemma get_set key key' values m :
  get key' (set key values m)
  = if decide (key' = key) then Some values else get key' m.
Proof.
  unfold get, set. destruct (decide (key' = key)) as [->|Hne].
  - apply JsMapFacts.get_set_same.
  - by apply JsMapLaws.get_set_other.
Qed.

(** [set] then [get]: the key reads back the new array, every other key
    reads what it read before; a key that was present keeps its place in the
    order of iteration, a new one goes last; the size grows only for a new
    key. *)
Theorem set_replaces_one_entry key key' values m :
  get key' (set key values m)
  = (if decide (key' = key) then Some values else get key' m)
  ∧ MultiValueMap.keys (set key values m)
    = (if hasKey key m then MultiValueMap.keys m
       else MultiValueMap.keys m ++ [key])
  ∧ size (set key values m) = (if hasKey key m then size m else S (size m)).
Proof.
  split; [apply get_set|]. split.
  - unfold MultiValueMap.keys, set, hasKey. rewrite JsMapFacts.keys_set.
    rewrite JsMapFacts.has_keys. by case_decide; case_bool_decide.
  - apply JsMapLaws.size_set.
Qed.

Lemma of_entries_snoc (es : list (K * list V)) key values :
  of_entries (es ++ [(key, values)]) = set key values (of_entries es).
Proof. unfold of_entries, array_forEach. by rewrite fold_left_app. Qed.

Lemma elem_keys_of_entries (es : list (K * list V)) key :
  key ∈ MultiValueMap.keys (of_entries es) ↔ key ∈ es.*1.
Proof.
  induction es as [|[k values] es IH] using rev_ind; [done|].
  rewrite of_entries_snoc. unfold MultiValueMap.keys, set in *.
  rewrite JsMapFacts.keys_set, fmap_app, elem_of_app. cbn.
  rewrite list_elem_of_singleton, <- IH. unfold JsMap.keys.
  case_decide as Hin; [|by rewrite elem_of_app, list_elem_of_singleton].
  split; [tauto|]. intros [?| ->]; done.
Qed.

(** The constructor: a key reads the array of its last entry in the input,
    and is present exactly when the input names it. *)
Theorem of_entries_last_entry_wins (es : list (K * list V)) key :
  get key (of_entries es) = snd <$> last (filter (λ e, e.1 = key) es)
  ∧ hasKey key (of_entries es) = bool_decide (key ∈ es.*1).
Proof.
  split.
  - induction es as [|[k values] es IH] using rev_ind; [done|].
    rewrite of_entries_snoc, get_set, filter_app, filter_cons, filter_nil.
    cbn [fst]. destruct (decide (key = k)) as [->|Hne].
    + rewrite decide_True by done. by rewrite last_snoc.
    + rewrite decide_False by done. by rewrite app_nil_r.
  - unfold hasKey. rewrite JsMapFacts.has_keys.
    apply bool_decide_ext, elem_keys_of_entries.
Qed.

(** *** Keys are never repeated *)

Lemma NoDup_keys_of_entries (es : list (K * list V)) :
  NoDup (MultiValueMap.keys (of_entries es)).
Proof.
  induction es as [|[k values] es IH] using rev_ind; [constructor|].
  rewrite of_entries_snoc. by apply JsMapLaws.NoDup_keys_set.
Qed.

Lemma NoDup_keys_lazy_or (f : list (K * list V) → bool * list (K * list V))
    result m :
  (∀ m, NoDup (JsMap.keys m) → NoDup (JsMap.keys (f m).2)) →
  NoDup (JsMap.keys m) → NoDup (JsMap.keys (lazy_or result f m).2).
Proof. intros Hf Hnd. destruct result; cbn [lazy_or snd]; auto. Qed.

Lemma NoDup_keys_deleteByValue value m :
  NoDup (JsMap.keys m) → NoDup (JsMap.keys (deleteByValue value m).2).
Proof.
  intros Hnd.
  destruct (MultiValueMapFacts.deleteByValue_at_most_one value m)
    as [-> | [key ->]]; [done|].
  by apply JsMapLaws.NoDup_keys_remove.
Qed.

Lemma NoDup_keys_step m (o : op) :
  NoDup (JsMap.keys m) → NoDup (JsMap.keys (step strictEq m o)).
Proof.
  intros Hnd.
  destruct o as [key values|key values|key|ks|value|values|key value|];
    cbn [step].
  - by apply JsMapLaws.NoDup_keys_set.
  - by apply JsMapLaws.NoDup_keys_set.
  - by apply JsMapLaws.NoDup_keys_remove.
  - destruct (MultiValueMapFacts.deleteByKeys_at_most_one ks m)
      as [-> | [key ->]]; [done|].
    by apply JsMapLaws.NoDup_keys_remove.
  - by apply NoDup_keys_deleteByValue.
  - unfold deleteByValues.
    destruct ((length values =? 0) || (size m =? 0)); [done|].
    change m with (false, m).2 in Hnd. revert Hnd.
    generalize (false, m). clear m.
    induction values as [|value values IH]; intros [result m] Hnd; [done|].
    cbn [fold_left]. apply IH, NoDup_keys_lazy_or; [|done].
    apply NoDup_keys_deleteByValue.
  - unfold deleteValueOfKey. destruct (negb _); [done|].
    by apply JsMapLaws.NoDup_keys_set.
  - constructor.
Qed.

Lemma NoDup_keys_run (entries : list (K * list V)) (ops : list op) :
  NoDup (JsMap.keys (run strictEq ops (of_entries entries))).
Proof.
  unfold run. generalize (NoDup_keys_of_entries entries).
  unfold MultiValueMap.keys. generalize (of_entries entries).
  induction ops as [|o ops IH]; intros m Hnd; [done|].
  cbn [fold_left]. by apply IH, NoDup_keys_step.
Qed.

(** *** The delete family *)

Lemma get_deleteByKey key key' m :
  NoDup (JsMap.keys m) →
  get key' (deleteByKey key m).2
  = if decide (key' = key) then None else get key' m.
Proof.
  intros Hnd. unfold get, deleteByKey, JsMap.delete. cbn [snd].
  destruct (decide (key' = key)) as [->|Hne].
  - by apply JsMapLaws.get_remove_same.
  - by apply JsMapLaws.get_remove_other.
Qed.

(** [deleteByKey] in a reachable state: the result tells whether the key was
    present; afterwards the key is absent and every other key reads what it
    read before; the size drops by one for a key that was present; a second
    call returns false and changes nothing. *)
Theorem deleteByKey_removes_the_key
    (entries : list (K * list V)) (ops : list op) key key' :
  let m := run strictEq ops (of_entries entries) in
  let after := (deleteByKey key m).2 in
  (deleteByKey key m).1 = hasKey key m
  ∧ get key' after = (if decide (key' = key) then None else get key' m)
  ∧ size after = (if hasKey key m then size m - 1 else size m)
  ∧ deleteByKey key after = (false, after).
Proof.
  intros m after.
  assert (Hnd : NoDup (JsMap.keys m)) by apply NoDup_keys_run.
  split; [done|]. split; [by apply get_deleteByKey|].
  split; [apply JsMapLaws.size_remove|].
  assert (Hgone : key ∉ JsMap.keys after).
  { apply JsMapLaws.get_None. by apply JsMapLaws.get_remove_same. }
  unfold deleteByKey, JsMap.delete, JsMap.has.
  rewrite bool_decide_eq_false_2 by done.
  by rewrite MultiValueMapFacts.remove_absent.
Qed.

Lemma deleteByKeys_loop keys m :
  fold_left (λ '(result, m) key, lazy_or result (JsMap.delete key) m)
    keys (false, m)
  = match List.find (λ key, hasKey key m) keys with
    | Some key => (true, (deleteByKey key m).2)
    | None => (false, m)
    end.
Proof.
  induction keys as [|key keys IH]; [done|].
  cbn [fold_left lazy_or List.find].
  change (JsMap.delete key m) with (JsMap.has key m, JsMap.remove key m).
  change (hasKey key m) with (JsMap.has key m).
  destruct (JsMap.has key m) eqn:Hhas.
  - apply MultiValueMapFacts.deleteByKeys_loop_done.
  - rewrite MultiValueMapFacts.remove_absent; [apply IH|].
    unfold JsMap.has in Hhas. by apply bool_decide_eq_false_1 in Hhas.
Qed.

Lemma find_hasKey_empty keys :
  List.find (λ key, hasKey key (empty (V:=V))) keys = None.
Proof. induction keys as [|key keys IH]; [done|]. apply IH. Qed.

(** [deleteByKeys] deletes the first of the given keys that is present, and
    no other; it returns true exactly when there is such a key. *)
Theorem deleteByKeys_deletes_first_present_key keys m :
  deleteByKeys keys m
  = match List.find (λ key, hasKey key m) keys with
    | Some key => (true, (deleteByKey key m).2)
    | None => (false, m)
    end.
Proof.
  unfold deleteByKeys. destruct keys as [|key keys]; [done|].
  destruct m as [|e m]; [by rewrite find_hasKey_empty|].
  cbn [length Nat.eqb size JsMap.size orb]. apply deleteByKeys_loop.
Qed.

Lemma deleteByValue_find value m :
  deleteByValue value m
  = match List.find (λ e, includes value e.2) m with
    | Some e => (true, (deleteByKey e.1 m).2)
    | None => (false, m)
    end.
Proof.
  unfold deleteByValue. destruct m as [|e0 m0]; [done|].
  cbn [size JsMap.size length Nat.eqb]. unfold entries, JsMap.entries.
  set (m := e0 :: m0).
  assert (Hsub : ∀ e, e ∈ m → e ∈ m) by done. revert Hsub.
  generalize m at 1 3 5. intros es Hsub.
  induction es as [|[key values] es IH]; [done|].
  cbn [fold_left List.find snd fst].
  destruct (includes value values); [|apply IH; intros e He; apply Hsub; by right].
  cbn [lazy_or].
  change (JsMap.delete key m) with (JsMap.has key m, JsMap.remove key m).
  assert (Hhas : JsMap.has key m = true).
  { unfold JsMap.has. apply bool_decide_eq_true_2.
    apply (list_elem_of_fmap_2 fst m (key, values)), Hsub. by left. }
  rewrite Hhas. apply MultiValueMapFacts.deleteByValue_loop_done.
Qed.

(** [deleteByValue] deletes the first entry, in insertion order, whose array
    contains the value, and no other; it returns true exactly when some
    array contains the value. *)
Theorem deleteByValue_deletes_first_match value m :
  deleteByValue value m
  = (match List.find (λ e, includes value e.2) m with
     | Some e => (true, (deleteByKey e.1 m).2)
     | None => (false, m)
     end)
  ∧ ((deleteByValue value m).1 = true ↔
     ∃ array, array ∈ MultiValueMap.values m ∧ value ∈ array).
Proof.
  split; [apply deleteByValue_find|]. rewrite deleteByValue_find.
  destruct (List.find _ m) as [e|] eqn:Hfind; cbn [fst].
  - split; [intros _|done]. apply find_some in Hfind as [Hin Hinc].
    exists e.2. split.
    + apply (list_elem_of_fmap_2 snd), list_elem_of_In, Hin.
    + by apply MultiValueMapFacts.includes_true.
  - split; [done|]. intros (array & Harr & Hval).
    apply list_elem_of_fmap in Harr as (e & -> & He).
    apply list_elem_of_In in He.
    apply (find_none _ _ Hfind) in He.
    apply MultiValueMapFacts.includes_true in Hval. congruence.
Qed.

Lemma deleteByValues_loop_done (values : list V) m :
  fold_left (λ '(result, m) value, lazy_or result (deleteByValue value) m)
    values (true, m) = (true, m).
Proof. induction values as [|value values IH]; [done|]. apply IH. Qed.

(** [deleteByValues] runs [deleteByValue] for the first of the given values
    that some array contains, and for no other. *)
Theorem deleteByValues_deletes_for_first_value (values : list V) m :
  deleteByValues values m
  = match List.find (λ value, existsb (λ e, includes value e.2) m) values with
    | Some value => deleteByValue value m
    | None => (false, m)
    end.
Proof.
  unfold deleteByValues. destruct values as [|value0 values0]; [done|].
  destruct m as [|e0 m0].
  { assert (Hnone : ∀ vs : list V,
      List.find (λ value, existsb (λ e : K * list V, includes value e.2) [])
        vs = None) by (intros vs; induction vs; done).
    rewrite Hnone. reflexivity. }
  cbn [length Nat.eqb size JsMap.size orb].
  generalize (value0 :: values0) (e0 :: m0). clear. intros values m.
  induction values as [|value values IH]; [done|].
  cbn [fold_left lazy_or List.find].
  destruct (existsb _ m) eqn:Hex.
  - apply existsb_exists in Hex as (e & He & Hinc).
    rewrite deleteByValue_find.
    destruct (List.find _ m) as [e'|] eqn:Hfind.
    + apply deleteByValues_loop_done.
    + apply (find_none _ _ Hfind) in He. congruence.
  - rewrite deleteByValue_find.
    destruct (List.find _ m) as [e'|] eqn:Hfind; [|apply IH].
    apply find_some in Hfind as [Hin Hinc].
    assert (existsb (λ e, includes value e.2) m = true); [|congruence].
    apply existsb_exists. by exists e'.
Qed.

(** [deleteValueOfKey]: true exactly when the array of the key contains the
    value; then the array of the key is the old one without the elements
    that are [===] to the value, and the entry stays where it is, also when
    the array becomes empty; the other keys are untouched.  When [===]
    decides equality with the value, the key no longer has the value. *)
Theorem deleteValueOfKey_filters_the_array key key' value m :
  let array := default [] (get key m) in
  let r := deleteValueOfKey strictEq key value m in
  (r.1 = true ↔ ∃ values, get key m = Some values ∧ value ∈ values)
  ∧ get key' r.2
    = (if r.1 && bool_decide (key' = key)
       then Some (List.filter (λ v, negb (strictEq v value)) array)
       else get key' m)
  ∧ MultiValueMap.keys r.2 = MultiValueMap.keys m
  ∧ ((∀ v, strictEq v value = bool_decide (v = value)) →
     hasKeyValue key value r.2 = false).
Proof.
  intros array r.
  assert (Hr : r.1 = includes value array).
  { unfold r, deleteValueOfKey. fold array. by destruct (includes value array). }
  assert (Hiff : r.1 = true ↔ ∃ values, get key m = Some values ∧ value ∈ values).
  { rewrite Hr, MultiValueMapFacts.includes_true. unfold array. split.
    - destruct (get key m) as [values|]; [by exists values|].
      by intros ?%elem_of_nil.
    - by intros (values & -> & Hin). }
  assert (Hget : ∀ k, get k r.2
    = (if r.1 && bool_decide (k = key)
       then Some (List.filter (λ v, negb (strictEq v value)) array)
       else get k m)).
  { intros k. unfold r, deleteValueOfKey. fold array.
    destruct (includes value array); cbn [negb fst snd andb]; [|done].
    fold (set key (List.filter (λ v, negb (strictEq v value)) array) m).
    rewrite get_set. by case_decide; case_bool_decide. }
  split; [done|]. split; [apply Hget|]. split.
  - unfold r, deleteValueOfKey. fold array.
    destruct (includes value array) eqn:Hinc; cbn [negb snd]; [|done].
    unfold MultiValueMap.keys. rewrite JsMapFacts.keys_set.
    rewrite decide_True; [done|].
    apply dec_stable. rewrite <- JsMapLaws.get_None. intros Hnone.
    apply MultiValueMapFacts.includes_true in Hinc.
    unfold array, get in Hinc. rewrite Hnone in Hinc.
    by apply elem_of_nil in Hinc.
  - intros Hstrict. unfold hasKeyValue.
    destruct (size r.2 =? 0); [done|].
    apply not_true_is_false. rewrite MultiValueMapFacts.includes_true.
    rewrite Hget, bool_decide_eq_true_2, andb_true_r by done.
    destruct r.1 eqn:Hr1; cbn [default].
    + intros Hin. apply list_elem_of_In, filter_In in Hin as [_ Hkept].
      rewrite Hstrict, bool_decide_eq_true_2 in Hkept by done. done.
    + fold array. by rewrite <- MultiValueMapFacts.includes_true, <- Hr.
Qed.

(** *** The key predicates *)

Lemma hasAnyKeys_loop_true keys m :
  hasAnyKeys_loop keys m = true ↔ ∃ key, key ∈ keys ∧ hasKey key m = true.
Proof.
  induction keys as [|k keys IH]; cbn [hasAnyKeys_loop].
  - split; [done | by intros (? & ?%elem_of_nil & _)].
  - destruct (hasKey k m) eqn:Hk.
    + split; [intros _; exists k; split; [by left | done] | done].
    + rewrite IH. split.
      * intros (key & Hin & Hhas). exists key. split; [by right | done].
      * intros (key & [->|Hin]%elem_of_cons & Hhas); [congruence|].
        by exists key.
Qed.

Lemma hasAllKeys_loop_true keys m :
  hasAllKeys_loop keys m = true ↔ ∀ key, key ∈ keys → hasKey key m = true.
Proof.
  induction keys as [|k keys IH]; cbn [hasAllKeys_loop].
  - split; [by intros _ ? ?%elem_of_nil | done].
  - destruct (hasKey k m) eqn:Hk; cbn [negb].
    + rewrite IH. split.
      * intros Hall key [->|Hin]%elem_of_cons; [done | by apply Hall].
      * intros Hall key Hin. apply Hall. by right.
    + split; [done|]. intros Hall. rewrite <- Hk. apply Hall. by left.
Qed.

(** [hasAnyKeys] is true exactly when one of the given keys is present;
    [hasAllKeys] is true exactly when at least one key is given and every
    given key is present. *)
Theorem hasAnyKeys_hasAllKeys_meaning keys m :
  (hasAnyKeys keys m = true ↔ ∃ key, key ∈ keys ∧ hasKey key m = true)
  ∧ (hasAllKeys keys m = true ↔
     keys ≠ [] ∧ ∀ key, key ∈ keys → hasKey key m = true).
Proof.
  unfold hasAnyKeys, hasAllKeys.
  rewrite <- hasAnyKeys_loop_true, <- hasAllKeys_loop_true.
  destruct keys as [|k keys].
  { split; [done|]. split; [done | by intros []]. }
  destruct m as [|e m].
  { assert (Hany : ∀ ks : list K,
              hasAnyKeys_loop ks (empty (V:=V)) = false)
      by (intros ks; induction ks; done).
    assert (Hall : hasAllKeys_loop (k :: keys) (empty (V:=V)) = false) by done.
    unfold empty, JsMap.empty in Hany, Hall. rewrite Hany, Hall.
    split; [done|]. split; [done | by intros [_ ?]]. }
  cbn [length Nat.eqb size JsMap.size orb]. split; [done|].
  split; [done | by intros [_ ?]].
Qed.

(** [hasKeyValue] is true exactly when the key is present and its array
    contains the value. *)
Theorem hasKeyValue_meaning key value m :
  hasKeyValue key value m = true ↔
  ∃ values, get key m = Some values ∧ value ∈ values.
Proof.
  unfold hasKeyValue, size, JsMap.size.
  destruct m as [|e m]; cbn [length Nat.eqb].
  - split; [done | by intros (? & ? & _)].
  - rewrite MultiValueMapFacts.includes_true.
    destruct (get key (e :: m)) as [values|]; cbn [default].
    + split; [by exists values | by intros (? & [= <-] & ?)].
    + split; [by intros ?%elem_of_nil | by intros (? & ? & _)].
Qed.

(** *** forEach and forEachIndexing *)

Lemma forEachIndexing_loop {St : Type}
    (callback : list V → K → nat → list (K * list V) → St → St)
    (m es : list (K * list V)) (n : nat) (st : St) :
  fold_left
    (λ st e,
       (λ values key '(index, st),
          (index + 1, callback values key index m st)) e.2 e.1 st)
    es (n, st)
  = (n + length es,
     fold_left (λ st '(index, (key, values)), callback values key index m st)
       (imap (λ i e, (n + i, e)) es) st).
Proof.
  revert n st. induction es as [|[key values] es IH]; intros n st.
  - cbn. f_equal. lia.
  - cbn [fold_left fst snd imap length]. rewrite IH. f_equal; [lia|].
    rewrite Nat.add_0_r. f_equal. apply imap_ext. intros i e _. cbn.
    f_equal. lia.
Qed.

(** [forEach] runs the callback on every entry in insertion order;
    [forEachIndexing] does the same and hands the callback the position of
    the entry, counted from zero. *)
Theorem forEach_forEachIndexing_visit_in_order {St : Type}
    (callback : list V → K → list (K * list V) → St → St)
    (indexing : list V → K → nat → list (K * list V) → St → St)
    m (st : St) :
  forEach callback m st
  = fold_left (λ st '(key, values), callback values key m st) (entries m) st
  ∧ forEachIndexing indexing m st
    = fold_left (λ st '(index, (key, values)), indexing values key index m st)
        (imap (λ i e, (i, e)) (entries m)) st
  ∧ forEachIndexing (λ values key index _ log, log ++ [(index, key)]) m []
    = imap (λ i e, (i, e.1)) (entries m).
Proof.
  assert (Hix : ∀ (T : Type) (f : list V → K → nat → list (K * list V) → T → T)
                  (t : T),
    forEachIndexing f m t
    = fold_left (λ st '(index, (key, values)), f values key index m st)
        (imap (λ i e, (i, e)) (entries m)) t).
  { intros T f t. unfold forEachIndexing, JsMap.forEach, entries, JsMap.entries.
    by rewrite (forEachIndexing_loop f m m 0 t). }
  split; [|split; [apply Hix|]].
  - unfold forEach, JsMap.forEach, entries, JsMap.entries.
    assert (Hgen : ∀ (es : list (K * list V)) st,
      fold_left
        (λ st e, (λ values key st, callback values key m st) e.2 e.1 st) es st
      = fold_left (λ st '(key, values), callback values key m st) es st).
    { intros es. induction es as [|[key values] es IH]; intros st'; [done|].
      apply IH. }
    apply Hgen.
  - rewrite Hix. unfold entries, JsMap.entries.
    assert (Hgen : ∀ (es : list (K * list V)) (f : nat → nat) log,
      fold_left
        (λ (st : list (nat * K)) '(index, (key, _)), st ++ [(index, key)])
        (imap (λ i e, (f i, e)) es) log
      = log ++ imap (λ i e, (f i, e.1)) es).
    { intros es. induction es as [|[key values] es IH]; intros f log.
      - by rewrite app_nil_r.
      - cbn [imap fold_left fst]. rewrite (IH (f ∘ S)).
        by rewrite <- app_assoc. }
    exact (Hgen m id []).
Qed.
End MultiValueMapLaws.

(** *** toString *)

Lemma mapM_None {A B : Type} (f : A → option B) (l : list A) :
  mapM f l = None ↔ ∃ x, x ∈ l ∧ f x = None.
Proof.
  induction l as [|x l IH].
  - split; [done|]. intros (x & Hx & _). by apply elem_of_nil in Hx.
  - cbn [mapM]. destruct (f x) as [y|] eqn:Hfx; cbn.
    + destruct (mapM f l) as [ys|] eqn:Hl; cbn.
      * split; [done|]. intros (x' & Hx' & Hnone).
        apply elem_of_cons in Hx' as [->|Hx']; [congruence|].
        by assert (Some ys = None) by (apply IH; eauto).
      * split; [|done]. intros _.
        destruct (proj1 IH eq_refl) as (x' & Hx' & Hnone).
        exists x'. split; [by apply elem_of_cons; right | done].
    + split; [|done]. intros _. exists x.
      split; [by apply elem_of_cons; left | done].
Qed.

(** The text of one entry, from the texts of the key and of the values. *)
Lemma toString_entry_text {K V : Type}
    (keyJoinStr : K → option string) (valueJoinStr : V → option string)
    (keyJoin : K → option string) (key : K) (values : list V) :
  MultiValueMapText.toString_entry keyJoinStr valueJoinStr keyJoin
    [MultiValueMapText.CKey key; MultiValueMapText.CValues values]
  = (keyText ← keyJoinStr key;
     valueTexts ← mapM valueJoinStr values;
     Some (keyText +:+ ":[" +:+ String.concat "," valueTexts +:+ "]")).
Proof.
  unfold MultiValueMapText.toString_entry, MultiValueMapText.join.
  cbn [length Nat.leb removelast last mapM MultiValueMapText.cell_joinStr
       MultiValueMapText.join_method].
  destruct (keyJoinStr key) as [keyText|]; [|done].
  unfold MultiValueMapText.join.
  by destruct (mapM valueJoinStr values) as [valueTexts|].
Qed.

(** [toString()] of a MultiValueMap prints every entry as the key, a colon
    and the values joined by commas inside square brackets, and joins the
    entries by semicolons in insertion order.  The key is printed the way
    [join] prints an element (the key goes through [entry.slice(0, -1)], an
    array), so an [undefined] key prints as nothing.  The call ends with a
    TypeError exactly when a key or a value of the map has no conversion to
    a string, as a Symbol has none. *)
Theorem toString_renders_or_throws :
  (∀ (K V : Type)
     (keyJoinStr : K → option string) (valueJoinStr : V → option string)
     (keyJoin : K → option string) (m : list (K * list V)),
     MultiValueMapText.toString keyJoinStr valueJoinStr keyJoin m
     = (rendered ←
          mapM (λ '(key, values),
                  keyText ← keyJoinStr key;
                  valueTexts ← mapM valueJoinStr values;
                  Some (keyText +:+ ":["
                        +:+ String.concat "," valueTexts +:+ "]"))
            m;
        Some (String.concat ";" rendered))
     ∧ (MultiValueMapText.toString keyJoinStr valueJoinStr keyJoin m = None
        ↔ ∃ key values,
            (key, values) ∈ m
            ∧ (keyJoinStr key = None
               ∨ ∃ value, value ∈ values ∧ valueJoinStr value = None)))
  ∧ MultiValueMapText.toString Some Some (λ _, None)
      (of_entries Scenarios.palette)
    = Some "color:[red,green,blue];position:[top,right,bottom,left]"
  ∧ MultiValueMapText.toString
      Scenarios.primitive_joinStr Scenarios.primitive_joinStr (λ _, None)
      [(Scenarios.Undefined, [Scenarios.Undefined; Scenarios.Str "a"])]
    = Some ":[,a]"
  ∧ MultiValueMapText.toString
      Scenarios.primitive_joinStr Scenarios.primitive_joinStr (λ _, None)
      [(Scenarios.Str "color", [Scenarios.Str "red"]);
       (Scenarios.Symbol "id", [Scenarios.Str "blue"])]
    = None
  ∧ MultiValueMapText.toString
      Scenarios.primitive_joinStr Scenarios.primitive_joinStr (λ _, None)
      [(Scenarios.Str "color", [Scenarios.Str "red"; Scenarios.Symbol "id"])]
    = None.
Proof.
  split; [|by vm_compute].
  intros K V keyJoinStr valueJoinStr keyJoin m.
  set (text := λ '(key, values),
         keyText ← keyJoinStr key;
         valueTexts ← mapM valueJoinStr values;
         Some (keyText +:+ ":[" +:+ String.concat "," valueTexts +:+ "]")).
  assert (Heq : MultiValueMapText.toString keyJoinStr valueJoinStr keyJoin m
                = (rendered ← mapM text m; Some (String.concat ";" rendered))).
  { unfold MultiValueMapText.toString, iterator, JsMap.entries.
    f_equal. clear. induction m as [|[key values] m IH]; [done|].
    cbn [mapM]. by rewrite toString_entry_text, IH. }
  split; [exact Heq|]. rewrite Heq.
  transitivity (mapM text m = None).
  { by destruct (mapM text m). }
  rewrite mapM_None. split.
  - intros ([key values] & Hin & Hnone). exists key, values.
    split; [done|]. unfold text in Hnone.
    destruct (keyJoinStr key) as [keyText|]; [right | by left].
    cbn in Hnone. apply mapM_None.
    by destruct (mapM valueJoinStr values).
  - intros (key & values & Hin & Hnone). exists (key, values).
    split; [done|]. unfold text.
    destruct Hnone as [->|Hvalue]; [done|].
    apply mapM_None in Hvalue as ->. by destruct (keyJoinStr key).
Qed.
End MultiValueMapLaws.

(** ** push and the arrays shared between keys *)
Module MultiValueMapRefsLaws.
Import MultiValueMapRefs.
Section MultiValueMapRefsLaws.
Context {K V : Type} `{EqDecision K}.
Variable argumentLimit : nat.
Implicit Types (m : list (K * ref)) (h : heap (V:=V)) (key : K).
Implicit Types (array values : ref).

#[local] Abbreviation push := (push argumentLimit).

Lemma get_contents key m h :
  MultiValueMap.get key (contents m h) = elements h <$> get key m.
Proof.
  unfold MultiValueMap.get, get, contents.
  induction m as [|[k r] m IH]; [done|].
  rewrite fmap_cons. cbn [JsMap.get]. by case_decide.
Qed.

(** Writing to an array that the map does not hold changes nothing in what
    the map shows. *)
Lemma contents_write array new m h :
  (∀ key r, (key, r) ∈ m → r ≠ array) →
  contents m (write array new h) = contents m h.
Proof.
  unfold contents. intros Hother. apply list_fmap_ext.
  intros i [key r] Hi. cbn. f_equal.
  rewrite decide_False; [done|].
  eapply Hother, list_elem_of_lookup_2, Hi.
Qed.

(** [push] appends where the array is.  When the values fit into one call,
    the key reads its old elements followed by the new ones (the new ones
    alone for a key that was not there); every key that holds the same array
    object reads the appended elements too; a key that holds another array
    reads what it read before; the keys keep their order, a new key going
    last.  When there are more values than a call can take, the call ends
    with the RangeError. *)
Theorem push_appends_in_place key values m h :
  values < next h →
  allocated m h →
  if argumentLimit <? length (elements h values)
  then push key values m h = None
  else
    ∃ m' h',
      push key values m h = Some (m', h')
      ∧ read key m' h'
        = Some (default [] (read key m h) ++ elements h values)
      ∧ (∀ key' array,
           get key m = Some array → get key' m = Some array →
           read key' m' h' = Some (elements h array ++ elements h values))
      ∧ (∀ key',
           key' ≠ key →
           (∀ array, get key m = Some array → get key' m ≠ Some array) →
           read key' m' h' = read key' m h)
      ∧ JsMap.keys m'
        = (if JsMap.has key m then JsMap.keys m else JsMap.keys m ++ [key])
      ∧ allocated m' h'.
Proof.
  intros Hvalues Hm. unfold push, MultiValueMapRefs.push, array_push.
  destruct (get key m) as [array|] eqn:Hget.
  - destruct (argumentLimit <? length (elements h values)); [done|].
    cbn. eexists _, _. split; [done|].
    unfold set. rewrite (JsMapLaws.set_present key array m Hget). unfold read.
    split; [|split; [|split; [|split]]].
    + rewrite Hget. cbn. by rewrite decide_True.
    + intros key' array' [= <-] ->. cbn. by rewrite decide_True.
    + intros key' _ Hother. destruct (get key' m) as [r|] eqn:Hget'; [|done].
      cbn. rewrite decide_False; [done|].
      intros ->. by apply (Hother array).
    + rewrite JsMapLaws.has_get. unfold get in Hget. rewrite Hget.
      by rewrite bool_decide_eq_true_2.
    + exact Hm.
  - cbn [new_array elements].
    rewrite (decide_False (P := values = next h)) by lia.
    destruct (argumentLimit <? length (elements h values)); [done|].
    cbn. eexists _, _. split; [done|]. unfold read. rewrite Hget.
    split; [|split; [|split; [|split]]].
    + unfold get, set. rewrite JsMapFacts.get_set_same. cbn.
      by rewrite !decide_True.
    + intros key' array [=].
    + intros key' Hne _. unfold get, set.
      rewrite JsMapLaws.get_set_other by done.
      destruct (JsMap.get key' m) as [r|] eqn:Hget'; [|done].
      cbn. apply Hm in Hget'. by rewrite !decide_False by lia.
    + unfold set. rewrite JsMapFacts.keys_set, JsMapFacts.has_keys.
      by case_decide; case_bool_decide.
    + intros key' r. unfold get, set. cbn [next write].
      destruct (decide (key' = key)) as [->|Hne].
      * rewrite JsMapFacts.get_set_same. intros [= <-]. lia.
      * rewrite JsMapLaws.get_set_other by done.
        intros Hget'. apply Hm in Hget'. lia.
Qed.

(** With the arrays as values: when the key shares its array with no other
    key, the map after [push] shows what [MultiValueMap.push] computes. *)
Theorem push_without_sharing key values m h :
  values < next h →
  allocated m h →
  NoDup (JsMap.keys m) →
  unshared key m →
  length (elements h values) ≤ argumentLimit →
  ∃ m' h',
    push key values m h = Some (m', h')
    ∧ contents m' h' = MultiValueMap.push key (elements h values) (contents m h).
Proof.
  intros Hvalues Hm Hnodup Hunshared Hfit.
  unfold push, MultiValueMapRefs.push, array_push, MultiValueMap.push.
  rewrite get_contents.
  destruct (get key m) as [array|] eqn:Hget.
  - replace (argumentLimit <? length (elements h values)) with false
      by (symmetry; apply Nat.ltb_ge; lia).
    cbn. eexists _, _. split; [done|].
    unfold set. rewrite (JsMapLaws.set_present key array m Hget).
    clear Hm Hvalues Hfit.
    induction m as [|[k r] m IH]; [done|].
    unfold contents. rewrite !fmap_cons. cbn [JsMap.set].
    unfold JsMap.keys in Hnodup. rewrite fmap_cons in Hnodup.
    apply NoDup_cons in Hnodup as [Hk Hnodup]. cbn [fst] in Hk.
    unfold get in Hget. cbn [JsMap.get] in Hget.
    destruct (decide (key = k)) as [->|Hne].
    + injection Hget as ->. cbn [elements write]. rewrite decide_True by done.
      f_equal. apply contents_write. intros key' r Hin ->.
      apply Hk. assert (key' = k) as <-; [|by apply list_elem_of_fmap; eexists (_, _)].
      apply (Hunshared key' array).
      * unfold get. cbn [JsMap.get]. by rewrite decide_True.
      * unfold get. cbn [JsMap.get]. rewrite decide_False.
        -- by apply JsMapLaws.elem_get.
        -- intros ->. apply Hk. apply list_elem_of_fmap. by eexists (_, _).
    + f_equal.
      * cbn [elements write]. rewrite decide_False; [done|]. intros ->.
        apply Hne. symmetry. apply (Hunshared k array).
        -- unfold get. cbn [JsMap.get]. by rewrite decide_False.
        -- unfold get. cbn [JsMap.get]. by rewrite decide_True.
      * apply IH; [done| |done].
        intros key' array' Hkey Hkey'.
        destruct (decide (key' = k)) as [->|Hne'].
        -- exfalso. apply Hk. apply JsMapLaws.get_Some_elem in Hkey'.
           apply list_elem_of_fmap. by eexists (_, _).
        -- apply (Hunshared key' array'); unfold get; cbn [JsMap.get];
             by rewrite decide_False.
  - cbn [new_array elements].
    rewrite (decide_False (P := values = next h)) by lia.
    replace (argumentLimit <? length (elements h values)) with false
      by (symmetry; apply Nat.ltb_ge; lia).
    cbn. eexists _, _. split; [done|].
    unfold set. rewrite (JsMapLaws.set_absent key (next h) m Hget).
    assert (Habsent : MultiValueMap.get key (contents m h) = None)
      by (by rewrite get_contents, Hget).
    unfold MultiValueMap.get in Habsent.
    rewrite (JsMapLaws.set_absent key _ _ Habsent).
    unfold contents at 1. rewrite fmap_app. cbn [fmap list_fmap].
    f_equal.
    + apply list_fmap_ext. intros i [key' r] Hi. cbn. f_equal.
      assert (r < next h).
      { apply (Hm key'). apply JsMapLaws.elem_get; [done|].
        eapply list_elem_of_lookup_2, Hi. }
      by rewrite !decide_False by lia.
    + cbn. by rewrite !decide_True.
Qed.
End MultiValueMapRefsLaws.

(** [set('a', red); set('b', red); push('a', x)]: the key [b] reads
    [red, x] as well. *)
Lemma push_appends_in_place_shared :
  ∃ m' h',
    MultiValueMapRefs.push 1000 "a" 1 Scenarios.shared_map
      Scenarios.shared_heap = Some (m', h')
    ∧ read "a" m' h' = Some ["red"; "x"]
    ∧ read "b" m' h' = Some ["red"; "x"].
Proof.
  assert (Hvalues : 1 < next Scenarios.shared_heap) by (cbn; lia).
  assert (Hm : allocated Scenarios.shared_map Scenarios.shared_heap).
  { intros key array. unfold get. cbn.
    repeat case_decide; intros ?; simplify_eq; lia. }
  destruct (push_appends_in_place 1000 "a" 1 Scenarios.shared_map
              Scenarios.shared_heap Hvalues Hm)
    as (m' & h' & Hpush & Hkey & Hshared & _).
  exists m', h'. split; [exact Hpush|]. split; [exact Hkey|].
  exact (Hshared "b" 0 eq_refl eq_refl).
Defined.

(** [set('a', red); set('b', blue); push('a', x)] *)
Lemma push_without_sharing_separate :
  ∃ m' h',
    MultiValueMapRefs.push 1000 "a" 2 Scenarios.separate_map
      Scenarios.separate_heap = Some (m', h')
    ∧ contents m' h' = [("a", ["red"; "x"]); ("b", ["blue"])].
Proof.
  assert (Hvalues : 2 < next Scenarios.separate_heap) by (cbn; lia).
  assert (Hm : allocated Scenarios.separate_map Scenarios.separate_heap).
  { intros key array. unfold get. cbn.
    repeat case_decide; intros ?; simplify_eq; lia. }
  assert (Hnodup : NoDup (JsMap.keys Scenarios.separate_map)).
  { cbn. apply NoDup_cons. split; [|apply NoDup_singleton].
    intros Hin. apply list_elem_of_singleton in Hin. discriminate. }
  assert (Hunshared : unshared "a" Scenarios.separate_map).
  { intros key array. unfold get. cbn.
    intros [= <-]. repeat case_decide; congruence. }
  assert (Hfit : length (elements Scenarios.separate_heap 2) ≤ 1000)
    by (cbn; lia).
  exact (push_without_sharing 1000 "a" 2 Scenarios.separate_map
           Scenarios.separate_heap Hvalues Hm Hnodup Hunshared Hfit).
Defined.
End MultiValueMapRefsLaws.

(** ** MultiKeyMap, continued *)
Module MultiKeyMapLaws.
Import MultiKeyMap.
Section MultiKeyMapLaws.
Context {K V : Type} `{EqDecision K} `{EqDecision V}.
Variable objectHash : list K → string.
Variable strictEq : V → V → bool.
Implicit Types (m : t (K:=K) (V:=V)) (keys : list K) (value : V) (hash : string).
Implicit Types (es : list (list K * V)).

#[local] Notation "'hashes' es" := (map objectHash es.*1)
  (at level 10, es at level 9, only parsing).
#[local] Abbreviation state_of := (MultiKeyMap.state_of objectHash).
#[local] Abbreviation represents := (MultiKeyMap.represents objectHash).
#[local] Abbreviation put_entry := (MultiKeyMap.put_entry objectHash).

(** *** Reachable states are determined by their entries *)

Lemma keys_keysMap_state_of es : JsMap.keys (keysMap (state_of es)) = hashes es.
Proof.
  unfold JsMap.keys. cbn [keysMap MultiKeyMap.state_of].
  induction es as [|e es IH]; [done|]. cbn. by rewrite <- IH.
Qed.

Lemma keys_valueMap_state_of es : JsMap.keys (valueMap (state_of es)) = hashes es.
Proof.
  unfold JsMap.keys. cbn [valueMap MultiKeyMap.state_of].
  induction es as [|e es IH]; [done|]. cbn. by rewrite <- IH.
Qed.

Lemma get_valueMap_state_of es keys value :
  NoDup (hashes es) → (keys, value) ∈ es →
  JsMap.get (objectHash keys) (valueMap (state_of es)) = Some value.
Proof.
  intros Hnd Hin. apply JsMapLaws.elem_get.
  - by rewrite keys_valueMap_state_of.
  - cbn [valueMap MultiKeyMap.state_of].
    apply (list_elem_of_fmap_2 (λ e, (objectHash e.1, e.2)) es (keys, value) Hin).
Qed.

Lemma get_keysMap_state_of es keys value :
  NoDup (hashes es) → (keys, value) ∈ es →
  MultiValueMap.get (objectHash keys) (keysMap (state_of es)) = Some keys.
Proof.
  intros Hnd Hin. apply JsMapLaws.elem_get.
  - by rewrite keys_keysMap_state_of.
  - cbn [keysMap MultiKeyMap.state_of].
    apply (list_elem_of_fmap_2 (λ e, (objectHash e.1, e.1)) es (keys, value) Hin).
Qed.

Lemma entries_state_of es : NoDup (hashes es) → entries (state_of es) = es.
Proof.
  intros Hnd. unfold entries. destruct es as [|e0 es0]; [done|].
  set (es := e0 :: es0) in *.
  cbn [valueMap MultiKeyMap.state_of JsMap.size length map Nat.eqb].
  replace (length (map (λ e, (objectHash e.1, e.2)) es) =? 0) with false
    by (unfold es; reflexivity).
  rewrite map_map. rewrite <- (map_id es) at 2.
  apply map_ext_in. intros [keys value] Hin. cbn [fst snd].
  rewrite (get_keysMap_state_of es keys value); [done | done|].
  by apply list_elem_of_In.
Qed.

Lemma filter_keeps_all {A : Type} (P : A → Prop) `{∀ x, Decision (P x)}
    (l : list A) :
  Forall P l → filter P l = l.
Proof.
  induction 1 as [|x l Hx _ IH]; [done|].
  by rewrite filter_cons_True, IH.
Qed.

Lemma filter_other_hashes es keys value (done : list (list K * V)) :
  NoDup (hashes (done ++ (keys, value) :: es)) →
  filter (λ e, objectHash e.1 ≠ objectHash keys) (done ++ (keys, value) :: es)
  = done ++ es.
Proof.
  rewrite fmap_app, map_app, fmap_cons, map_cons. cbn [fst].
  intros Hnd. apply NoDup_app in Hnd as (Hdone & Hdisj & Hrest).
  apply NoDup_cons in Hrest as [Hnotin Hes].
  rewrite filter_app, filter_cons, decide_False by (by intros []).
  f_equal; apply filter_keeps_all, Forall_forall; intros e He Heq.
  - apply (Hdisj (objectHash keys)); [|by left].
    rewrite <- Heq. apply list_elem_of_In, in_map, list_elem_of_In.
    by apply (list_elem_of_fmap_2 fst).
  - apply Hnotin. rewrite <- Heq.
    apply list_elem_of_In, in_map, list_elem_of_In.
    by apply (list_elem_of_fmap_2 fst).
Qed.

(** Deleting one surrogate from both stores. *)
Lemma delete_both_state_of es hash :
  NoDup (hashes es) →
  mk (MultiValueMap.deleteByKey hash (keysMap (state_of es))).2
     (JsMap.delete hash (valueMap (state_of es))).2
  = state_of (filter (λ e, objectHash e.1 ≠ hash) es).
Proof.
  unfold MultiValueMap.deleteByKey, JsMap.delete, MultiKeyMap.state_of.
  cbn [keysMap valueMap snd].
  induction es as [|[keys value] es IH]; [done|].
  cbn [map fmap list_fmap fst snd JsMap.remove]. intros Hnd.
  apply NoDup_cons in Hnd as [Hnotin Hnd].
  destruct (decide (hash = objectHash keys)) as [->|Hne].
  - rewrite !filter_cons_False by (by intros []).
    rewrite filter_keeps_all; [done|]. apply Forall_forall. intros e He Heq.
    apply Hnotin. rewrite <- Heq.
    apply list_elem_of_In, in_map, list_elem_of_In.
    by apply (list_elem_of_fmap_2 fst).
  - rewrite !filter_cons_True by (cbn; congruence). cbn [map fst snd].
    specialize (IH Hnd). injection IH as -> ->. done.
Qed.

Lemma NoDup_hashes_filter es (P : list K * V → Prop) `{∀ e, Decision (P e)} :
  NoDup (hashes es) → NoDup (hashes (filter P es)).
Proof.
  induction es as [|e es IH]; [done|]. rewrite fmap_cons, map_cons.
  intros [Hnotin Hnd]%NoDup_cons.
  rewrite filter_cons. destruct (decide (P e)); [|by apply IH].
  rewrite fmap_cons, map_cons. apply NoDup_cons. split; [|by apply IH].
  intros Hin. apply Hnotin.
  apply list_elem_of_In, in_map_iff in Hin as (ks & Hks & Hin).
  rewrite <- Hks. apply list_elem_of_In, in_map.
  apply list_elem_of_In, list_elem_of_fmap in Hin as (e' & -> & He').
  apply list_elem_of_In, (list_elem_of_fmap_2 fst).
  by apply list_elem_of_filter in He' as [_ ?].
Qed.

Lemma represents_filter es m (P : list K * V → Prop) `{∀ e, Decision (P e)} :
  represents es m → represents (filter P es) (state_of (filter P es)).
Proof.
  intros (_ & Hnd & Hne). split; [done|]. split.
  - by apply NoDup_hashes_filter.
  - apply Forall_forall. intros e [_ He]%list_elem_of_filter.
    by apply (proj1 (Forall_forall _ _) Hne).
Qed.

(** *** The mutators on a represented state *)

Lemma elem_hashes es e : e ∈ es → objectHash e.1 ∈ hashes es.
Proof.
  intros He. apply list_elem_of_In, in_map, list_elem_of_In.
  by apply (list_elem_of_fmap_2 fst).
Qed.

Lemma put_entry_nil keys value : put_entry keys value [] = [(keys, value)].
Proof.
  unfold MultiKeyMap.put_entry.
  by rewrite bool_decide_eq_false_2 by apply not_elem_of_nil.
Qed.

Lemma put_entry_cons_same keys value ks v es :
  objectHash keys = objectHash ks → objectHash ks ∉ hashes es →
  put_entry keys value ((ks, v) :: es) = (keys, value) :: es.
Proof.
  intros Heq Hnotin. unfold MultiKeyMap.put_entry.
  assert (Hin : objectHash keys ∈ hashes ((ks, v) :: es))
    by (rewrite Heq; by left).
  rewrite (bool_decide_eq_true_2 _ Hin), map_cons. cbn [fst].
  rewrite decide_True by done. f_equal.
  rewrite <- (map_id es) at 2. apply map_ext_in. intros e He.
  rewrite decide_False; [done|]. intros Heq'. apply Hnotin.
  rewrite <- Heq, <- Heq'. by apply elem_hashes, list_elem_of_In.
Qed.

Lemma put_entry_cons_other keys value ks v es :
  objectHash keys ≠ objectHash ks →
  put_entry keys value ((ks, v) :: es) = (ks, v) :: put_entry keys value es.
Proof.
  intros Hne. unfold MultiKeyMap.put_entry.
  destruct (decide (objectHash keys ∈ hashes es)) as [Hin|Hnotin].
  - assert (Hin' : objectHash keys ∈ hashes ((ks, v) :: es)) by (by right).
    rewrite (bool_decide_eq_true_2 _ Hin), (bool_decide_eq_true_2 _ Hin').
    rewrite map_cons. cbn [fst]. by rewrite decide_False.
  - assert (Hnotin' : objectHash keys ∉ hashes ((ks, v) :: es)).
    { intros [?|?]%elem_of_cons; done. }
    by rewrite (bool_decide_eq_false_2 _ Hnotin),
      (bool_decide_eq_false_2 _ Hnotin').
Qed.

Lemma set_state_of es keys value :
  keys ≠ [] → NoDup (hashes es) →
  set objectHash keys value (state_of es) = state_of (put_entry keys value es).
Proof.
  intros Hne Hnd. unfold set. destruct keys as [|k keys0]; [done|].
  set (keys := k :: keys0) in *.
  replace (length keys =? 0) with false by done.
  unfold MultiValueMap.set, MultiKeyMap.state_of. cbn [keysMap valueMap].
  induction es as [|[ks v] es IH].
  - by rewrite put_entry_nil.
  - apply NoDup_cons in Hnd as [Hnotin Hnd]. specialize (IH Hnd).
    cbn [map fst snd JsMap.set].
    destruct (decide (objectHash keys = objectHash ks)) as [Heq|Hneq].
    + rewrite put_entry_cons_same by done. cbn [map fst snd].
      by rewrite Heq.
    + rewrite put_entry_cons_other by done. cbn [map fst snd].
      injection IH as -> ->. done.
Qed.

Lemma elem_hashes_put_entry es keys value hash :
  NoDup (hashes es) →
  hash ∈ hashes (put_entry keys value es)
  ↔ hash = objectHash keys ∨ hash ∈ hashes es.
Proof.
  induction es as [|[ks v] es IH]; intros Hnd.
  - rewrite put_entry_nil. cbn. rewrite list_elem_of_singleton.
    split; [by left | by intros [?|?%elem_of_nil]].
  - apply NoDup_cons in Hnd as [Hnotin Hnd].
    destruct (decide (objectHash keys = objectHash ks)) as [Heq|Hneq].
    + rewrite put_entry_cons_same by done. cbn [map fmap list_fmap fst].
      rewrite !elem_of_cons, Heq. tauto.
    + rewrite put_entry_cons_other by done. cbn [map fmap list_fmap fst].
      rewrite !elem_of_cons, IH by done. tauto.
Qed.

Lemma NoDup_hashes_put_entry es keys value :
  NoDup (hashes es) → NoDup (hashes (put_entry keys value es)).
Proof.
  induction es as [|[ks v] es IH]; intros Hnd.
  - rewrite put_entry_nil. apply NoDup_singleton.
  - pose proof Hnd as Hnd'. apply NoDup_cons in Hnd as [Hnotin Hnd].
    destruct (decide (objectHash keys = objectHash ks)) as [Heq|Hneq].
    + rewrite put_entry_cons_same by done. cbn [map fmap list_fmap fst].
      by rewrite Heq.
    + rewrite put_entry_cons_other by done. cbn [map fmap list_fmap fst].
      apply NoDup_cons. split; [|by apply IH].
      rewrite elem_hashes_put_entry by done. intros [?|?]; done.
Qed.

Lemma Forall_put_entry es keys value (P : list K * V → Prop) :
  P (keys, value) → Forall P es → Forall P (put_entry keys value es).
Proof.
  intros Hnew Hall. unfold MultiKeyMap.put_entry.
  destruct (bool_decide _).
  - apply Forall_forall. intros e (e' & -> & He')%list_elem_of_fmap.
    case_decide; [done|]. by apply (proj1 (Forall_forall _ _) Hall).
  - apply Forall_app. split; [done|]. by constructor.
Qed.

Lemma represents_set es m keys value :
  keys ≠ [] → represents es m →
  represents (put_entry keys value es) (set objectHash keys value m).
Proof.
  intros Hne (-> & Hnd & Hall). split; [by apply set_state_of|]. split.
  - by apply NoDup_hashes_put_entry.
  - by apply Forall_put_entry.
Qed.

Lemma filter_absent_hash es hash :
  hash ∉ hashes es → filter (λ e, objectHash e.1 ≠ hash) es = es.
Proof.
  intros Hnotin. apply filter_keeps_all, Forall_forall. intros e He Heq.
  apply Hnotin. rewrite <- Heq. by apply elem_hashes.
Qed.

Lemma deleteByKey_state_of es keys :
  NoDup (hashes es) →
  deleteByKey objectHash keys (state_of es)
  = (negb (bool_decide (keys = [])) && bool_decide (objectHash keys ∈ hashes es),
     state_of (if bool_decide (keys = []) then es
               else filter (λ e, objectHash e.1 ≠ objectHash keys) es)).
Proof.
  intros Hnd. unfold deleteByKey. destruct keys as [|k keys0]; [done|].
  set (keys := k :: keys0). replace (length keys =? 0) with false by done.
  rewrite (bool_decide_eq_false_2 (keys = [])) by done. cbn [negb andb].
  rewrite JsMapFacts.has_keys, keys_valueMap_state_of.
  case_bool_decide as Hin; cbn [negb].
  - by rewrite delete_both_state_of.
  - by rewrite filter_absent_hash.
Qed.

Lemma deleteByValue_loop es (done : list (list K * V)) value result :
  NoDup (hashes (done ++ es)) →
  fold_left
    (λ '(result, m) '(k, v),
       if strictEq v value
       then (true, mk (MultiValueMap.deleteByKey k (keysMap m)).2
                      (JsMap.delete k (valueMap m)).2)
       else (result, m))
    (map (λ e, (objectHash e.1, e.2)) es) (result, state_of (done ++ es))
  = (result || existsb (λ e, strictEq e.2 value) es,
     state_of (done ++ filter (λ e, strictEq e.2 value = false) es)).
Proof.
  revert done result. induction es as [|[keys v] es IH]; intros done result Hnd.
  - by rewrite orb_false_r.
  - cbn [map fold_left fst snd existsb].
    destruct (strictEq v value) eqn:Hv.
    + rewrite delete_both_state_of, filter_other_hashes by done.
      rewrite filter_cons_False by (cbn; congruence).
      rewrite IH.
      * by rewrite orb_true_r.
      * rewrite fmap_app, map_app in Hnd |- *.
        rewrite fmap_cons, map_cons in Hnd.
        apply NoDup_app in Hnd as (Hd & Hdisj & [_ Hes]%NoDup_cons).
        apply NoDup_app. split; [done|]. split; [|done].
        intros h Hh Hh'. apply (Hdisj h Hh). by right.
    + rewrite filter_cons_True by done.
      rewrite (cons_middle (keys, v) done es), app_assoc in Hnd |- *.
      rewrite IH by done. rewrite <- app_assoc. done.
Qed.

Lemma deleteByValue_state_of es value :
  NoDup (hashes es) →
  deleteByValue strictEq value (state_of es)
  = (existsb (λ e, strictEq e.2 value) es,
     state_of (filter (λ e, strictEq e.2 value = false) es)).
Proof.
  intros Hnd. unfold deleteByValue. destruct es as [|e0 es0]; [done|].
  set (es := e0 :: es0) in *.
  replace (JsMap.size (valueMap (state_of es)) =? 0) with false by done.
  unfold JsMap.entries. cbn [valueMap MultiKeyMap.state_of].
  apply (deleteByValue_loop es [] value false Hnd).
Qed.

Lemma deleteByValues_loop_stays (values : list V) m :
  fold_left
    (λ '(result, m) value, lazy_or result (deleteByValue strictEq value) m)
    values (true, m) = (true, m).
Proof. induction values as [|value values IH]; [done|]. apply IH. Qed.

Lemma filter_no_match es value :
  existsb (λ e, strictEq e.2 value) es = false →
  filter (λ e, strictEq e.2 value = false) es = es.
Proof.
  intros Hex. apply filter_keeps_all, Forall_forall. intros e He.
  apply not_true_is_false. intros Hv.
  assert (existsb (λ e, strictEq e.2 value) es = true); [|congruence].
  apply existsb_exists. exists e. split; [by apply list_elem_of_In | done].
Qed.

Lemma deleteByValues_state_of es (values : list V) :
  NoDup (hashes es) →
  deleteByValues strictEq values (state_of es)
  = match List.find (λ value, existsb (λ e, strictEq e.2 value) es) values with
    | Some value =>
        (true, state_of (filter (λ e, strictEq e.2 value = false) es))
    | None => (false, state_of es)
    end.
Proof.
  intros Hnd. unfold deleteByValues. destruct values as [|value0 values0]; [done|].
  destruct es as [|e0 es0].
  { assert (Hnone : ∀ vs : list V,
      List.find (λ value, existsb (λ e : list K * V, strictEq e.2 value) [])
        vs = None) by (intros vs; induction vs; done).
    by rewrite Hnone. }
  set (es := e0 :: es0) in *. set (values := value0 :: values0).
  replace ((length values =? 0) || (JsMap.size (valueMap (state_of es)) =? 0))
    with false by done.
  clearbody values. clear value0 values0.
  induction values as [|value values IH]; [done|].
  cbn [fold_left lazy_or List.find]. rewrite deleteByValue_state_of by done.
  destruct (existsb _ es) eqn:Hex.
  - apply deleteByValues_loop_stays.
  - by rewrite filter_no_match.
Qed.

Lemma represents_empty : represents [] (empty (K:=K) (V:=V)).
Proof. split; [done|]. split; constructor. Qed.

Lemma set_empty_keys value m : set objectHash [] value m = m.
Proof. done. Qed.

Lemma represents_step es m (o : op) :
  represents es m → ∃ es', represents es' (step objectHash strictEq m o).
Proof.
  intros Hrep.
  destruct o as [ks value|ks|value|values|]; cbn [step].
  - destruct (decide (ks = [])) as [->|Hne]; [by exists es|].
    exists (put_entry ks value es). by apply represents_set.
  - pose proof Hrep as (-> & Hnd & _).
    rewrite deleteByKey_state_of by done. cbn [snd].
    case_bool_decide; [by exists es|].
    eexists. by apply (represents_filter es (state_of es)).
  - pose proof Hrep as (-> & Hnd & _).
    rewrite deleteByValue_state_of by done. cbn [snd].
    eexists. by apply (represents_filter es (state_of es)).
  - pose proof Hrep as (-> & Hnd & _).
    rewrite deleteByValues_state_of by done.
    destruct (List.find _ values); cbn [snd]; [|by exists es].
    eexists. by apply (represents_filter es (state_of es)).
  - exists []. apply represents_empty.
Qed.

Lemma represents_run (entries0 : list (list K * V)) (ops : list op) :
  ∃ es, represents es
          (run objectHash strictEq ops (of_entries objectHash entries0)).
Proof.
  assert (Hctor : ∃ es, represents es (of_entries objectHash entries0)).
  { unfold of_entries, array_forEach.
    assert (Hgen : ∀ (l : list (list K * V)) es m, represents es m →
      ∃ es', represents es'
        (fold_left
           (λ m entry, (λ entry m, let '(keys, value) := entry in
                                   set objectHash keys value m) entry m)
           l m)).
    { intros l. induction l as [|[ks value] l IH]; intros es m Hrep.
      - by exists es.
      - cbn [fold_left]. destruct (decide (ks = [])) as [->|Hne].
        + by apply (IH es).
        + apply (IH (put_entry ks value es)). by apply represents_set. }
    apply (Hgen entries0 [] empty represents_empty). }
  destruct Hctor as [es Hrep]. unfold run. revert es Hrep.
  generalize (of_entries objectHash entries0).
  induction ops as [|o ops IH]; intros m es Hrep; [by exists es|].
  cbn [fold_left]. destruct (represents_step es m o Hrep) as [es' Hrep'].
  by apply (IH _ es').
Qed.

Lemma represents_entries es m : represents es m → entries m = es.
Proof. intros (-> & Hnd & _). by apply entries_state_of. Qed.

Lemma keys_state_of es : keys (state_of es) = es.*1.
Proof.
  unfold keys, MultiValueMap.values, JsMap.values.
  cbn [keysMap MultiKeyMap.state_of].
  induction es as [|e es IH]; [done|]. cbn. by f_equal.
Qed.

Lemma values_state_of es : values (state_of es) = es.*2.
Proof.
  unfold values, JsMap.values. cbn [valueMap MultiKeyMap.state_of].
  induction es as [|e es IH]; [done|]. cbn. by f_equal.
Qed.

Lemma size_state_of es : size (state_of es) = length es.
Proof.
  unfold size, JsMap.size. cbn [valueMap MultiKeyMap.state_of].
  by rewrite length_map.
Qed.

(** In every reachable state the two stores are determined by [entries()]:
    each entry sits in both stores under the surrogate of its key array, the
    surrogates are distinct and no key array is empty.  So [keys()] and
    [values()] are the two columns of [entries()], [size] is their number,
    and every listed key array reads back its value with [get] and is
    reported by [hasKey]. *)
Theorem reachable_state_is_its_entries
    (entries0 : list (list K * V)) (ops : list op) :
  let m := run objectHash strictEq ops (of_entries objectHash entries0) in
  m = state_of (entries m)
  ∧ NoDup (map objectHash (keys m))
  ∧ keys m = (entries m).*1
  ∧ values m = (entries m).*2
  ∧ size m = length (entries m)
  ∧ ∀ ks v, (ks, v) ∈ entries m →
            ks ≠ [] ∧ get objectHash ks m = Some v ∧ hasKey ks m = true.
Proof.
  intros m. destruct (represents_run entries0 ops) as [es Hrep].
  fold m in Hrep. rewrite (represents_entries es m Hrep).
  destruct Hrep as (Hm & Hnd & Hall). rewrite Hm.
  rewrite keys_state_of, values_state_of, size_state_of.
  split; [done|]. split; [done|]. split; [done|]. split; [done|].
  split; [done|]. intros ks v Hin.
  assert (Hne : ks ≠ []) by apply (proj1 (Forall_forall _ _) Hall _ Hin).
  split; [done|]. split.
  - unfold get. destruct ks as [|k ks0]; [done|].
    by apply get_valueMap_state_of.
  - apply MultiKeyMapFacts.hasKey_true. split; [done|]. exists ks.
    rewrite keys_state_of. split; [|done].
    by apply (list_elem_of_fmap_2 fst es (ks, v)).
Qed.

(** *** set *)

(** [get] after [set], in any state: the value just set is read back under
    every non-empty key array that has the surrogate of [keys] (the same
    array, or one the hasher does not tell apart from it); every other
    lookup reads what it read before. *)
Theorem get_after_set keys keys' value m :
  get objectHash keys' (set objectHash keys value m)
  = if bool_decide (keys ≠ [] ∧ keys' ≠ []
                    ∧ objectHash keys' = objectHash keys)
    then Some value
    else get objectHash keys' m.
Proof.
  unfold get, set.
  destruct keys as [|k keys0].
  { rewrite bool_decide_eq_false_2; [done | by intros [? _]]. }
  destruct keys' as [|k' keys0'].
  { rewrite bool_decide_eq_false_2; [done | by intros (_ & ? & _)]. }
  set (keys := k :: keys0). set (keys' := k' :: keys0').
  replace (length keys =? 0) with false by done.
  replace (length keys' =? 0) with false by done.
  cbn [valueMap]. case_bool_decide as Hsame.
  - destruct Hsame as (_ & _ & ->). apply JsMapFacts.get_set_same.
  - apply JsMapLaws.get_set_other. intros Heq. apply Hsame. done.
Qed.

(** [get] after [set], in any state: the value just set is read back under
    every non-empty key array that has the surrogate of [keys] (the same
    array, or one the hasher does not tell apart from it); every other
    lookup reads what it read before. *)
(** [set] in a reachable state: the entry with the surrogate of [keys] is
    replaced where it stands, keys and value; without such an entry the new
    one goes last; with an empty [keys] nothing changes. *)
Theorem set_puts_one_entry
    (entries0 : list (list K * V)) (ops : list op) keys value :
  let m := run objectHash strictEq ops (of_entries objectHash entries0) in
  entries (set objectHash keys value m)
  = (if bool_decide (keys = []) then entries m
     else put_entry keys value (entries m))
  ∧ size (set objectHash keys value m)
    = (if bool_decide (keys ≠ [] ∧ get objectHash keys m = None)
       then S (size m) else size m).
Proof.
  intros m. destruct (represents_run entries0 ops) as [es Hrep].
  fold m in Hrep. rewrite (represents_entries es m Hrep).
  case_bool_decide as Hkeys.
  { subst keys. rewrite set_empty_keys, (represents_entries es m Hrep).
    split; [done|]. rewrite bool_decide_eq_false_2; [done | by intros [? _]]. }
  split.
  { apply represents_entries. by apply represents_set. }
  unfold size, set, get.
  destruct keys as [|k keys0]; [done|]. set (keys := k :: keys0).
  replace (length keys =? 0) with false by done. cbn [valueMap].
  rewrite JsMapLaws.size_set, JsMapLaws.has_get.
  case_bool_decide as Hsome; case_bool_decide as Hnone; try done.
  - destruct Hnone as [_ Hnone]. rewrite Hnone in Hsome. by destruct Hsome.
  - exfalso. apply Hnone. split; [done|].
    by apply eq_None_not_Some.
Qed.

(** *** The delete family *)

(** [deleteByKey] in a reachable state: it returns true exactly when [get]
    finds a value for the keys; the entry with the surrogate of the keys is
    gone from [entries()], the others stay in order; afterwards [get] finds
    nothing for the keys, and a second call returns false and changes
    nothing. *)
Theorem deleteByKey_removes_one_entry
    (entries0 : list (list K * V)) (ops : list op) keys :
  let m := run objectHash strictEq ops (of_entries objectHash entries0) in
  let after := (deleteByKey objectHash keys m).2 in
  (deleteByKey objectHash keys m).1
  = bool_decide (is_Some (get objectHash keys m))
  ∧ entries after
    = (if bool_decide (keys = []) then entries m
       else filter (λ e, objectHash e.1 ≠ objectHash keys) (entries m))
  ∧ get objectHash keys after = None
  ∧ deleteByKey objectHash keys after = (false, after).
Proof.
  intros m after. destruct (represents_run entries0 ops) as [es Hrep].
  fold m in Hrep. rewrite (represents_entries es m Hrep).
  pose proof Hrep as (Hm & Hnd & Hall).
  assert (Hafter : after
    = state_of (if bool_decide (keys = []) then es
                else filter (λ e, objectHash e.1 ≠ objectHash keys) es)).
  { unfold after. by rewrite Hm, deleteByKey_state_of. }
  assert (Hnd' : NoDup (hashes
    (if bool_decide (keys = []) then es
     else filter (λ e, objectHash e.1 ≠ objectHash keys) es))).
  { case_bool_decide; [done | by apply NoDup_hashes_filter]. }
  assert (Hgone : get objectHash keys after = None).
  { unfold get. destruct keys as [|k keys0]; [done|]. set (keys := k :: keys0).
    replace (length keys =? 0) with false by done.
    rewrite Hafter, bool_decide_eq_false_2 by done.
    apply JsMapLaws.get_None. rewrite keys_valueMap_state_of.
    intros Hin. apply list_elem_of_In, in_map_iff in Hin as (ks & Hks & Hin).
    apply list_elem_of_In, list_elem_of_fmap in Hin as (e & -> & He).
    by apply list_elem_of_filter in He as [? _]. }
  split.
  { unfold deleteByKey, get. cbv zeta. destruct (length keys =? 0).
    - rewrite bool_decide_eq_false_2; [done | by intros []].
    - rewrite JsMapLaws.has_get.
      by destruct (bool_decide
                     (is_Some (JsMap.get (objectHash keys) (valueMap m)))). }
  split; [rewrite Hafter; by apply entries_state_of|]. split; [done|].
  unfold deleteByKey. cbv zeta. destruct (length keys =? 0) eqn:Hlen; [done|].
  unfold get in Hgone. cbv zeta in Hgone. rewrite Hlen in Hgone.
  rewrite JsMapLaws.has_get, Hgone.
  rewrite bool_decide_eq_false_2; [done | by intros []].
Qed.

(** [deleteByValue] in a reachable state deletes every entry whose value is
    [===] to the given one, from both stores, and keeps the others in
    order; it returns true exactly when there was such an entry. *)
Theorem deleteByValue_removes_every_match
    (entries0 : list (list K * V)) (ops : list op) value :
  let m := run objectHash strictEq ops (of_entries objectHash entries0) in
  (deleteByValue strictEq value m).1
  = existsb (λ v, strictEq v value) (values m)
  ∧ entries (deleteByValue strictEq value m).2
    = filter (λ e, strictEq e.2 value = false) (entries m)
  ∧ synchronized (deleteByValue strictEq value m).2.
Proof.
  intros m. destruct (represents_run entries0 ops) as [es Hrep].
  fold m in Hrep. rewrite (represents_entries es m Hrep).
  pose proof Hrep as (Hm & Hnd & Hall).
  rewrite Hm, deleteByValue_state_of, values_state_of by done. cbn [fst snd].
  split; [|split].
  - clear. induction es as [|e es IH]; [done|]. cbn. by rewrite IH.
  - by apply entries_state_of, NoDup_hashes_filter.
  - unfold synchronized, MultiValueMap.keys.
    by rewrite keys_keysMap_state_of, keys_valueMap_state_of.
Qed.

Lemma deleteByValue_result_loop value (es : list (string * V)) result m :
  (fold_left
     (λ '(result, m) '(k, v),
        if strictEq v value
        then (true, mk (MultiValueMap.deleteByKey k (keysMap m)).2
                       (JsMap.delete k (valueMap m)).2)
        else (result, m))
     es (result, m)).1
  = result || existsb (λ e, strictEq e.2 value) es
  ∧ (existsb (λ e, strictEq e.2 value) es = false →
     fold_left
       (λ '(result, m) '(k, v),
          if strictEq v value
          then (true, mk (MultiValueMap.deleteByKey k (keysMap m)).2
                         (JsMap.delete k (valueMap m)).2)
          else (result, m))
       es (result, m) = (result, m)).
Proof.
  revert result m. induction es as [|[k v] es IH]; intros result m.
  - split; [by rewrite orb_false_r | done].
  - cbn [fold_left existsb snd]. destruct (strictEq v value); cbn [orb].
    + split; [|done]. rewrite (proj1 (IH _ _)). by rewrite orb_true_r.
    + apply IH.
Qed.

Lemma deleteByValue_result value m :
  (deleteByValue strictEq value m).1
  = existsb (λ e, strictEq e.2 value) (valueMap m)
  ∧ (existsb (λ e, strictEq e.2 value) (valueMap m) = false →
     deleteByValue strictEq value m = (false, m)).
Proof.
  unfold deleteByValue. destruct (valueMap m) as [|e0 vm0] eqn:Hvm; [done|].
  replace (JsMap.size (e0 :: vm0) =? 0) with false by done.
  unfold JsMap.entries.
  apply (deleteByValue_result_loop value (e0 :: vm0) false m).
Qed.

(** [deleteByValues], in any state, runs [deleteByValue] for the first of
    the given values that some entry has, and for no other: the entries
    that have one of the later values stay. *)
Theorem deleteByValues_stops_at_first_value (vs : list V) m :
  deleteByValues strictEq vs m
  = match List.find (λ value, existsb (λ v, strictEq v value) (values m)) vs with
    | Some value => deleteByValue strictEq value m
    | None => (false, m)
    end.
Proof.
  assert (Hvalues : ∀ value,
    existsb (λ v, strictEq v value) (values m)
    = existsb (λ e, strictEq e.2 value) (valueMap m)).
  { intros value. unfold values, JsMap.values.
    induction (valueMap m) as [|e vm IH]; [done|]. cbn. by rewrite IH. }
  assert (Hfind :
    List.find (λ value, existsb (λ v, strictEq v value) (values m)) vs
    = List.find (λ value, existsb (λ e, strictEq e.2 value) (valueMap m)) vs).
  { induction vs as [|value vs IH]; [done|].
    cbn [List.find]. by rewrite Hvalues, IH. }
  rewrite Hfind. clear Hfind Hvalues.
  unfold deleteByValues. destruct vs as [|value0 vs0]; [done|].
  destruct (JsMap.size (valueMap m) =? 0) eqn:Hsize.
  { destruct (valueMap m) as [|e0 vm0]; [|done].
    assert (Hnone : ∀ l : list V,
      List.find (λ value, existsb (λ e : string * V, strictEq e.2 value) []) l
      = None) by (intros l; induction l; done).
    by rewrite Hnone. }
  replace ((length (value0 :: vs0) =? 0) || false) with false by done.
  generalize (value0 :: vs0). clear value0 vs0. intros vs.
  induction vs as [|value vs IH]; [done|].
  cbn [fold_left lazy_or List.find].
  destruct (deleteByValue_result value m) as [Hres Hsame].
  destruct (existsb _ (valueMap m)) eqn:Hex.
  - destruct (deleteByValue strictEq value m) as [r m'] eqn:Hdel.
    cbn [fst] in Hres. subst r. apply deleteByValues_loop_stays.
  - rewrite Hsame by done. apply IH.
Qed.

(** *** The predicates *)

Lemma hasAnyValues_loop_existsb (vs : list V) m :
  hasAnyValues_loop vs m = existsb (λ value, hasValue value m) vs.
Proof.
  induction vs as [|value vs IH]; [done|]. cbn [hasAnyValues_loop existsb].
  by destruct (hasValue value m).
Qed.

Lemma hasAllValues_loop_forallb (vs : list V) m :
  hasAllValues_loop vs m = forallb (λ value, hasValue value m) vs.
Proof.
  induction vs as [|value vs IH]; [done|]. cbn [hasAllValues_loop forallb].
  by destruct (hasValue value m).
Qed.

Lemma hasAnyKeys_loop_existsb (ks : list (list K)) m :
  hasAnyKeys_loop ks m = existsb (λ keys, hasKey keys m) ks.
Proof.
  induction ks as [|keys ks IH]; [done|]. cbn [hasAnyKeys_loop existsb].
  by destruct (hasKey keys m).
Qed.

Lemma hasAllKeys_loop_forallb (ks : list (list K)) m :
  hasAllKeys_loop ks m = forallb (λ keys, hasKey keys m) ks.
Proof.
  induction ks as [|keys ks IH]; [done|]. cbn [hasAllKeys_loop forallb].
  by destruct (hasKey keys m).
Qed.

Lemma hasValue_elem value m : hasValue value m = true ↔ value ∈ values m.
Proof. unfold hasValue. apply MultiValueMapFacts.includes_true. Qed.

Lemma hasKey_empty_store keys m : keysMap m = [] → hasKey keys m = false.
Proof.
  intros Hkm. unfold hasKey, MultiValueMap.hasValue. rewrite Hkm.
  cbn [MultiValueMap.size JsMap.size length Nat.eqb].
  by rewrite orb_true_r, andb_false_r.
Qed.

(** The any/all predicates, in any state: [hasAnyValues] is true exactly
    when one of the given values is a value of the map, [hasAllValues]
    exactly when at least one value is given and each is a value of the map;
    [hasAnyKeys] and [hasAllKeys] are the same over [hasKey]. *)
Theorem any_all_predicates_meaning (ks : list (list K)) (vs : list V) m :
  (hasAnyValues vs m = true ↔ ∃ value, value ∈ vs ∧ value ∈ values m)
  ∧ (hasAllValues vs m = true ↔
     vs ≠ [] ∧ ∀ value, value ∈ vs → value ∈ values m)
  ∧ (hasAnyKeys ks m = true ↔ ∃ keys, keys ∈ ks ∧ hasKey keys m = true)
  ∧ (hasAllKeys ks m = true ↔
     ks ≠ [] ∧ ∀ keys, keys ∈ ks → hasKey keys m = true).
Proof.
  assert (Hany : ∀ (A : Type) (f : A → bool) (l : list A),
    existsb f l = true ↔ ∃ x, x ∈ l ∧ f x = true).
  { intros A f l. rewrite existsb_exists.
    by setoid_rewrite list_elem_of_In. }
  assert (Hall : ∀ (A : Type) (f : A → bool) (l : list A),
    forallb f l = true ↔ ∀ x, x ∈ l → f x = true).
  { intros A f l. rewrite forallb_forall.
    by setoid_rewrite list_elem_of_In. }
  unfold hasAnyValues, hasAllValues, hasAnyKeys, hasAllKeys.
  rewrite hasAnyValues_loop_existsb, hasAllValues_loop_forallb,
    hasAnyKeys_loop_existsb, hasAllKeys_loop_forallb.
  setoid_rewrite <- hasValue_elem.
  rewrite <- !Hany, <- !Hall.
  split; [|split; [|split]].
  - destruct vs as [|v vs0]; [done|].
    destruct (JsMap.size (valueMap m) =? 0) eqn:Hsize; [|done].
    cbn [length Nat.eqb orb]. split; [done|]. intros Hex.
    apply Hany in Hex as (value & _ & Hin). apply hasValue_elem in Hin.
    unfold values, JsMap.values in Hin.
    destruct (valueMap m); [by apply elem_of_nil in Hin | done].
  - destruct vs as [|v vs0]; [split; [done | by intros []]|].
    destruct (JsMap.size (valueMap m) =? 0) eqn:Hsize.
    + cbn [length Nat.eqb orb]. split; [done|]. intros [_ Hforall].
      assert (Hin : hasValue v m = true).
      { apply (proj1 (Hall _ _ _) Hforall). by left. }
      apply hasValue_elem in Hin. unfold values, JsMap.values in Hin.
      destruct (valueMap m); [by apply elem_of_nil in Hin | done].
    + cbn [length Nat.eqb orb]. split; [done | by intros [_ ?]].
  - destruct ks as [|k ks0]; [done|].
    destruct (MultiValueMap.size (keysMap m) =? 0) eqn:Hsize; [|done].
    cbn [length Nat.eqb orb]. split; [done|]. intros Hex.
    apply Hany in Hex as (keys & _ & Hin).
    rewrite hasKey_empty_store in Hin; [done|].
    unfold MultiValueMap.size, JsMap.size in Hsize.
    by destruct (keysMap m).
  - destruct ks as [|k ks0]; [split; [done | by intros []]|].
    destruct (MultiValueMap.size (keysMap m) =? 0) eqn:Hsize.
    + cbn [length Nat.eqb orb]. split; [done|]. intros [_ Hforall].
      assert (Hin : hasKey k m = true).
      { apply (proj1 (Hall _ _ _) Hforall). by left. }
      rewrite hasKey_empty_store in Hin; [done|].
      unfold MultiValueMap.size, JsMap.size in Hsize.
      by destruct (keysMap m).
    + cbn [length Nat.eqb orb]. split; [done | by intros [_ ?]].
Qed.

(** [hasKeyValue] right after [set] compares the value just set with [===];
    for keys under which [get] finds nothing it tells whether the value
    asked for is [undefined], so [hasKeyValue(keys, undefined)] is true for
    keys that are not registered. *)
Theorem hasKeyValue_after_set_and_on_missing_keys
    (isUndefined : V → bool) keys value value' m :
  hasKeyValue objectHash strictEq isUndefined keys value'
    (set objectHash keys value m)
  = negb (bool_decide (keys = [])) && strictEq value value'
  ∧ (get objectHash keys m = None →
     hasKeyValue objectHash strictEq isUndefined keys value' m
     = negb (bool_decide (keys = [])) && isUndefined value').
Proof.
  unfold hasKeyValue. destruct keys as [|k keys0]; [done|].
  set (keys := k :: keys0).
  rewrite (bool_decide_eq_false_2 (keys = [])) by done.
  replace (0 <? length keys) with true by done. cbn [negb andb].
  split; [|by intros ->].
  unfold get, set. replace (length keys =? 0) with false by done.
  cbn [valueMap]. by rewrite JsMapFacts.get_set_same.
Qed.

(** *** forEach and forEachIndexing *)

Lemma forEachIndexing_snapshot_loop {St : Type}
    (indexing : V → list K → nat → t → St → t * St)
    es (n : nat) m (st : St) :
  array_forEach
    (λ entry '(index, (m, st)),
       let '(keys, value) := entry in
       (index + 1, indexing value keys index m st))
    es (n, (m, st))
  = (n + length es,
     fold_left (λ '(m, st) '(index, (keys, value)), indexing value keys index m st)
       (imap (λ i e, (n + i, e)) es) (m, st)).
Proof.
  unfold array_forEach. revert n m st.
  induction es as [|[keys value] es IH]; intros n m st.
  - cbn. f_equal. lia.
  - cbn [fold_left imap length]. rewrite Nat.add_0_r.
    destruct (indexing value keys n m st) as [m' st'].
    rewrite IH. f_equal; [lia|]. f_equal.
    apply imap_ext. intros i e _. cbn. f_equal. lia.
Qed.

(** [forEach] and [forEachIndexing] go through the entries the map had when
    they were called, in order, whatever the callback does to the map in
    between: a callback that clears the map is still called on every one of
    them; [forEachIndexing] hands out the positions, counted from zero. *)
Theorem forEach_forEachIndexing_walk_a_snapshot {St : Type}
    (callback : V → list K → t → St → t * St)
    (indexing : V → list K → nat → t → St → t * St) m (st : St) :
  forEach callback m st
  = fold_left (λ '(m, st) '(keys, value), callback value keys m st)
      (entries m) (m, st)
  ∧ forEachIndexing indexing m st
    = fold_left
        (λ '(m, st) '(index, (keys, value)), indexing value keys index m st)
        (imap (λ i e, (i, e)) (entries m)) (m, st)
  ∧ (forEach (λ value keys m log, (clear m, log ++ [(keys, value)])) m []).2
    = entries m
  ∧ (forEachIndexing
       (λ value keys index m log, (clear m, log ++ [(index, keys)])) m []).2
    = imap (λ i e, (i, e.1)) (entries m).
Proof.
  assert (Hix : ∀ (T : Type) (f : V → list K → nat → t → T → t * T) (x : T),
    forEachIndexing f m x
    = fold_left (λ '(m, st) '(index, (keys, value)), f value keys index m st)
        (imap (λ i e, (i, e)) (entries m)) (m, x)).
  { intros T f x. unfold forEachIndexing.
    by rewrite (forEachIndexing_snapshot_loop f (entries m) 0 m x). }
  split; [|split; [apply Hix|split]].
  - unfold forEach, array_forEach. generalize (m, st). generalize (entries m).
    intros es. induction es as [|[keys value] es IH]; intros [m' st']; [done|].
    apply IH.
  - unfold forEach, array_forEach.
    assert (Hgen : ∀ es m' (log : list (list K * V)),
      (fold_left
         (λ st x,
            (λ entry '(m, st),
               let '(keys, value) := entry in
               (clear m, st ++ [(keys, value)])) x st)
         es (m', log)).2 = log ++ es).
    { intros es. induction es as [|[keys value] es IH]; intros m' log.
      - by rewrite app_nil_r.
      - cbn [fold_left]. rewrite IH. by rewrite <- app_assoc. }
    apply (Hgen (entries m) m []).
  - rewrite Hix.
    assert (Hgen : ∀ es (f : nat → nat) m' (log : list (nat * list K)),
      (fold_left
         (λ '(m, st) '(index, (keys, _)), (clear m, st ++ [(index, keys)]))
         (imap (λ i e, (f i, e)) es) (m', log)).2
      = log ++ imap (λ i e, (f i, e.1)) es).
    { intros es. induction es as [|[keys value] es IH]; intros f m' log.
      - by rewrite app_nil_r.
      - cbn [imap fold_left fst]. rewrite (IH (f ∘ S)).
        by rewrite <- app_assoc. }
    exact (Hgen (entries m) id m []).
Qed.
End MultiKeyMapLaws.
End MultiKeyMapLaws.

(** * forEachBreakable, with callbacks that change the map *)
Module IterationFacts.

Section MapDataFacts.
Context {K V : Type} `{EqDecision K}.
Implicit Types (d : list (option (K * V))) (m : list (K * V)).


(** The records agree with the association list of [JsMap]. *)
Lemma entries_set key value d :
  MapData.entries (MapData.set key value d)
  = JsMap.set key value (MapData.entries d).
Proof.
  unfold MapData.entries.
  induction d as [|[[k v]|] d IH]; [done| |exact IH].
  cbn [MapData.set]. case_decide as Hk.
  - cbn. by rewrite decide_True.
  - cbn. rewrite decide_False by done. by f_equal.
Qed.

Lemma entries_delete key d :
  MapData.entries (MapData.delete key d)
  = JsMap.remove key (MapData.entries d).
Proof.
  unfold MapData.entries.
  induction d as [|[[k v]|] d IH]; [done| |exact IH].
  cbn [MapData.delete]. case_decide as Hk.
  - cbn. by rewrite decide_True.
  - cbn. rewrite decide_False by done. by f_equal.
Qed.

Lemma entries_clear d :
  MapData.entries (MapData.clear d) = JsMap.clear (MapData.entries d).
Proof.
  unfold MapData.entries, MapData.clear, JsMap.clear.
  induction d as [|r d IH]; [done|]. by rewrite fmap_cons.
Qed.


End MapDataFacts.

Section MultiValueMapIteration.
Context {K V St : Type} `{EqDecision K}.
Implicit Types (m : list (K * list V)).



End MultiValueMapIteration.




End IterationFacts.
